(** * Verification of the unit-conversion pipeline of engmcp

    Shallow embedding of:
    - src/src/main.ts (second program): generateCompleteConversions,
      validateConversions, ensureCompleteConversions;
    - src/dist/postprocess/linkUnits.js: findUnitBySymbol (unit linker),
      and the conversion generator bundled after it (validateConversion,
      loadCheckpoint, the Phase 1 / Phase 2 loops of main);
    - src/dist/postprocess/cleanupDuplicates.js: calculateStringSimilarity,
      findSemanticDuplicates, batchDetectDuplicates.

    JavaScript numbers used as conversion multipliers are modelled by exact
    rationals [Q] (the values of the number literals of the JSON data), and
    the arithmetic of the validator by IEEE binary64 operations
    ([SpecFloat]); strings by [string] (byte strings, the unit ids being
    ASCII); a JS [Map<string, number>] by [gmap string Q]. *)

From Stdlib Require Import QArith Qabs Qfield Ascii String.
From Stdlib Require SpecFloat.
From stdpp Require Import base gmap strings list fin_maps.

Open Scope string_scope.
Set Warnings "-register-all".


(* ------------------------------------------------------------------ *)
(** ** Data model (types/schemas.ts) *)

Record Unit := mkUnit {
  uid : string;
  usymbol : string;
  uabbreviations : list string;
  uunitGroupId : option string
}.

Record ConversionEquation := mkConv {
  cid : string;
  fromUnitId : string;
  toUnitId : string;
  multiplier : Q;
  equation : string;
  description : string
}.

Definition str_eqb (a b : string) : bool := bool_decide (a = b).

(* ------------------------------------------------------------------ *)
(** ** ClosureEngine: generateCompleteConversions (main.ts, 189-279) *)

(** The key separator as it is in the source file: the UTF-8 bytes
    C3 A2 E2 80 A0 E2 80 99 (a mis-decoded arrow). *)
Definition sep : string :=
  String (Ascii.ascii_of_nat 195) (String (Ascii.ascii_of_nat 162)
  (String (Ascii.ascii_of_nat 226) (String (Ascii.ascii_of_nat 128)
  (String (Ascii.ascii_of_nat 160) (String (Ascii.ascii_of_nat 226)
  (String (Ascii.ascii_of_nat 128) (String (Ascii.ascii_of_nat 153)
  EmptyString))))))).

(** [`${from}â†’${to}`] *)
Definition key (f t : string) : string := f +:+ sep +:+ t.

Section Closure.

(** [generateUUID()] and the number-to-string conversion used in the
    template [`x * ${multiplier}`]: the UUID generator is a supply indexed by
    a counter threaded through the computation. *)
Variable generateUUID : nat -> string.
Variable num_to_string : Q -> string.

(** [multipliers.set(key, conv.multiplier)] for every existing conversion. *)
Definition seed_direct (m : gmap string Q) (cs : list ConversionEquation)
  : gmap string Q :=
  fold_left (fun m c => <[key (fromUnitId c) (toUnitId c) := multiplier c]> m) cs m.

(** [multipliers.set(`${unit.id}→${unit.id}`, 1.0)] for every unit. *)
Definition seed_self (m : gmap string Q) (us : list Unit) : gmap string Q :=
  fold_left (fun m u => <[key (uid u) (uid u) := 1%Q]> m) us m.

(** The body of the innermost loop. *)
Definition relax (m : gmap string Q) (i k j : Unit) : gmap string Q :=
  match m !! key (uid i) (uid k), m !! key (uid k) (uid j) with
  | Some ikMult, Some kjMult =>
      match m !! key (uid i) (uid j) with
      | Some _ => m
      | None => <[key (uid i) (uid j) := (ikMult * kjMult)%Q]> m
      end
  | _, _ => m
  end.

(** [for (const k of units) for (const i of units) for (const j of units)] *)
Definition relax_all (us : list Unit) (m : gmap string Q) : gmap string Q :=
  fold_left (fun m k =>
    fold_left (fun m i =>
      fold_left (fun m j => relax m i k j) us m) us m) us m.

(** The whole [multipliers] table (the unused [conversionMap] of lines
    198-203 has no effect and is not modelled). *)
Definition closure_table (us : list Unit) (cs : list ConversionEquation)
  : gmap string Q :=
  relax_all us (seed_self (seed_direct ∅ cs) us).

(** [existingConversions.find(c => c.fromUnitId === f && c.toUnitId === t)] *)
Definition find_conv (cs : list ConversionEquation) (f t : string)
  : option ConversionEquation :=
  find (fun c => str_eqb (fromUnitId c) f && str_eqb (toUnitId c) t) cs.

(** One iteration of the [toUnit] loop: state = (allConversions, uuid counter) *)
Definition emit_pair (cs : list ConversionEquation) (tbl : gmap string Q)
    (fromUnit toUnit : Unit) (st : list ConversionEquation * nat)
  : list ConversionEquation * nat :=
  let '(acc, n) := st in
  if str_eqb (uid fromUnit) (uid toUnit) then st
  else match tbl !! key (uid fromUnit) (uid toUnit) with
       | None => st
       | Some m =>
           match find_conv cs (uid fromUnit) (uid toUnit) with
           | Some existing => ((acc ++ [existing])%list, n)
           | None =>
               ((acc ++ [mkConv (generateUUID n) (uid fromUnit) (uid toUnit) m
                          ("x * " +:+ num_to_string m)
                          (usymbol fromUnit +:+ " to " +:+ usymbol toUnit)])%list, S n)
           end
       end.

Definition emit_all (us : list Unit) (cs : list ConversionEquation)
    (tbl : gmap string Q) (n0 : nat) : list ConversionEquation * nat :=
  fold_left (fun st f => fold_left (fun st t => emit_pair cs tbl f t st) us st)
    us ([], n0).

(** [generateCompleteConversions(units, existingConversions)], with the
    UUID counter in and out. *)
Definition generateCompleteConversions_st (us : list Unit)
    (cs : list ConversionEquation) (n0 : nat) : list ConversionEquation * nat :=
  if Nat.ltb (length us) 2 then (cs, n0)
  else emit_all us cs (closure_table us cs) n0.

Definition generateCompleteConversions (us : list Unit)
    (cs : list ConversionEquation) (n0 : nat) : list ConversionEquation :=
  fst (generateCompleteConversions_st us cs n0).

End Closure.

(* ------------------------------------------------------------------ *)
(** ** ConsistencyValidator: validateConversions (main.ts, 284-308) *)

Definition Qltb (x y : Q) : bool := negb (Qle_bool y x).

(** IEEE binary64: 53 bits of precision, exponents up to 1024. *)
Definition double := SpecFloat.spec_float.
Definition dmul : double -> double -> double := SpecFloat.SFmul 53 1024.
Definition dsub : double -> double -> double := SpecFloat.SFsub 53 1024.
Definition dabs : double -> double := SpecFloat.SFabs.
Definition dltb : double -> double -> bool := SpecFloat.SFltb.

(** The double a JavaScript number with value [q] holds: [q] rounded to
    nearest, ties to even (the rounding of [JSON.parse] and of number
    literals); computed as the correctly rounded quotient Qnum q / Qden q. *)
Definition Q_to_double (q : Q) : double :=
  match Qnum q with
  | Z0 => SpecFloat.S754_zero false
  | Zpos m => SpecFloat.SFdiv 53 1024 (SpecFloat.S754_finite false m 0)
                (SpecFloat.S754_finite false (Qden q) 0)
  | Zneg m => SpecFloat.SFdiv 53 1024 (SpecFloat.S754_finite true m 0)
                (SpecFloat.S754_finite false (Qden q) 0)
  end.

(** [Math.abs(product - 1.0) < 0.01] with [product = a * b], every
    operation rounded to a double. *)
Definition inverse_ok (product : double) : bool :=
  dltb (dabs (dsub product (Q_to_double 1))) (Q_to_double (1 # 100)).

(** [conv.multiplier * reverse.multiplier] *)
Definition double_product (a b : Q) : double := dmul (Q_to_double a) (Q_to_double b).

(** The two [console.warn] messages of the validator. *)
Inductive Warning :=
| InverseMismatch (f t : string) (product : double)
| MissingReverse (f t : string).

(** [conversions.find(c => c.fromUnitId === conv.toUnitId && c.toUnitId === conv.fromUnitId)] *)
Definition find_reverse (cs : list ConversionEquation) (conv : ConversionEquation)
  : option ConversionEquation :=
  find (fun c => str_eqb (fromUnitId c) (toUnitId conv)
              && str_eqb (toUnitId c) (fromUnitId conv)) cs.

(** One iteration of the loop; state = (valid, issues, warnings emitted). *)
Definition validate_step (cs : list ConversionEquation)
    (st : nat * nat * list Warning) (conv : ConversionEquation)
  : nat * nat * list Warning :=
  let '(valid, issues, ws) := st in
  match find_reverse cs conv with
  | Some reverse =>
      let product := double_product (multiplier conv) (multiplier reverse) in
      if inverse_ok product then (S valid, issues, ws)
      else (valid, S issues, (ws ++ [InverseMismatch (fromUnitId conv) (toUnitId conv) product])%list)
  | None => (valid, S issues, (ws ++ [MissingReverse (fromUnitId conv) (toUnitId conv)])%list)
  end.

(** [validateConversions(conversions)] returns [{ valid, issues }]; the
    warnings it prints are returned alongside. *)
Definition validateConversions (cs : list ConversionEquation)
  : (nat * nat) * list Warning :=
  let '(valid, issues, ws) := fold_left (validate_step cs) cs (0%nat, 0%nat, []) in
  ((valid, issues), ws).

Record UnitGroup := mkGroup {
  gid : string;
  gname : string;
  gdescription : string;
  gunitIds : list string;
  gconversions : list ConversionEquation
}.

Definition set_conversions (g : UnitGroup) (cs : list ConversionEquation) : UnitGroup :=
  mkGroup (gid g) (gname g) (gdescription g) (gunitIds g) cs.

(** [allUnits.filter(u => group.unitIds.includes(u.id))] *)
Definition group_units (allUnits : list Unit) (g : UnitGroup) : list Unit :=
  filter (fun u => existsb (str_eqb (uid u)) (gunitIds g)) allUnits.

Section Ensure.

Variable generateUUID : nat -> string.
Variable num_to_string : Q -> string.

(** One iteration of the group loop of [ensureCompleteConversions]: state =
    (groups already visited, validation reports printed, uuid counter). *)
Definition ensure_step (allUnits : list Unit)
    (st : list UnitGroup * list ((nat * nat) * list Warning) * nat) (group : UnitGroup)
  : list UnitGroup * list ((nat * nat) * list Warning) * nat :=
  let '(done, reports, n) := st in
  let groupUnits := group_units allUnits group in
  let originalCount := length (gconversions group) in
  let expectedCount := (length groupUnits * (length groupUnits - 1))%nat in
  if Nat.ltb originalCount expectedCount then
    let '(complete, n') :=
      generateCompleteConversions_st generateUUID num_to_string groupUnits (gconversions group) n in
    ((done ++ [set_conversions group complete])%list,
     (reports ++ [validateConversions complete])%list, n')
  else ((done ++ [group])%list, reports, n).

(** [ensureCompleteConversions()]: the unit groups written back to
    global-units-master.json, with the validation reports printed. *)
Definition ensureCompleteConversions (allUnits : list Unit) (groups : list UnitGroup)
    (n0 : nat) : list UnitGroup * list ((nat * nat) * list Warning) :=
  let '(out, reports, _) := fold_left (ensure_step allUnits) groups ([], [], n0) in
  (out, reports).

End Ensure.

(** ** The summary of ensureCompleteConversions (main.ts, 327-378) *)

(** [totalOriginal], [totalGenerated] and [groupsFixed]; [added] is a
    difference of lengths, so [totalGenerated] is an integer. *)
Record EnsureTotals := mkTotals {
  totalOriginal : Z;
  totalGenerated : Z;
  groupsFixed : nat
}.

Section EnsureSummary.

Variable generateUUID : nat -> string.
Variable num_to_string : Q -> string.

(** One iteration of the group loop with its counters. *)
Definition ensure_totals_step (allUnits : list Unit)
    (st : (list UnitGroup * list ((nat * nat) * list Warning) * nat) * EnsureTotals)
    (group : UnitGroup)
  : (list UnitGroup * list ((nat * nat) * list Warning) * nat) * EnsureTotals :=
  let '(core, t) := st in
  let '(_, _, n) := core in
  let groupUnits := group_units allUnits group in
  let originalCount := length (gconversions group) in
  let expectedCount := (length groupUnits * (length groupUnits - 1))%nat in
  let t' :=
    if Nat.ltb originalCount expectedCount then
      let '(complete, _) :=
        generateCompleteConversions_st generateUUID num_to_string groupUnits (gconversions group) n in
      let added := (Z.of_nat (length complete) - Z.of_nat originalCount)%Z in
      mkTotals (totalOriginal t + Z.of_nat originalCount)%Z (totalGenerated t + added)%Z
        (S (groupsFixed t))
    else mkTotals (totalOriginal t + Z.of_nat originalCount)%Z (totalGenerated t) (groupsFixed t) in
  (ensure_step generateUUID num_to_string allUnits core group, t').

(** The printed counters and [metadata.totalConversions], i.e.
    [unitGroups.reduce((sum, g) => sum + g.conversions.length, 0)] over the
    updated groups. *)
Definition ensure_summary (allUnits : list Unit) (groups : list UnitGroup) (n0 : nat)
  : EnsureTotals * nat :=
  let '((out, _, _), t) :=
    fold_left (ensure_totals_step allUnits) groups (([], [], n0), mkTotals 0 0 0) in
  (t, fold_left (fun sum g => sum + length (gconversions g))%nat out 0%nat).

End EnsureSummary.

(** The groups the loop regenerates: fewer conversions than n(n-1). *)
Definition ensure_fixes (allUnits : list Unit) (g : UnitGroup) : bool :=
  Nat.ltb (length (gconversions g))
    (length (group_units allUnits g) * (length (group_units allUnits g) - 1)).


(* ------------------------------------------------------------------ *)
(** ** UnitLinker: findUnitBySymbol (linkUnits.js, 8-15) *)

(** [String.prototype.toLowerCase] on ASCII. *)
Definition lower_ascii (c : Ascii.ascii) : Ascii.ascii :=
  let n := Ascii.nat_of_ascii c in
  if (Nat.leb 65 n && Nat.leb n 90)%bool then Ascii.ascii_of_nat (n + 32) else c.

Fixpoint toLowerCase (s : string) : string :=
  match s with
  | EmptyString => EmptyString
  | String c s' => String (lower_ascii c) (toLowerCase s')
  end.

(** The lookup for any lowering [lower] standing for
    [String.prototype.toLowerCase]: JavaScript lowers by the Unicode case
    tables, which agree with [toLowerCase] above on ASCII strings only. *)
Section Lowering.
Variable lower : string -> string.

(** The predicate given to [units.find]. *)
Definition unit_matches_by (symbol : string) (u : Unit) : bool :=
  str_eqb (usymbol u) symbol
  || str_eqb (lower (usymbol u)) (lower symbol)
  || existsb (fun abbr => str_eqb abbr symbol
                          || str_eqb (lower abbr) (lower symbol))
       (uabbreviations u).

Definition findUnitBySymbol_by (symbol : string) (units : list Unit) : option Unit :=
  if str_eqb symbol "" then None
  else find (unit_matches_by symbol) units.

(** The lookup with its criteria merged: the symbol or an abbreviation
    equal to the reference up to case. *)
Definition matches_ci_by (symbol : string) (u : Unit) : bool :=
  str_eqb (lower (usymbol u)) (lower symbol)
  || existsb (fun a => str_eqb (lower a) (lower symbol)) (uabbreviations u).

End Lowering.

(** The lookup with the ASCII lowering, as the linking loop uses it on the
    ASCII unit symbols of the data. *)
Definition unit_matches (symbol : string) (u : Unit) : bool :=
  unit_matches_by toLowerCase symbol u.

Definition findUnitBySymbol (symbol : string) (units : list Unit) : option Unit :=
  findUnitBySymbol_by toLowerCase symbol units.

(** The lookup as the claim words it: a priority search, each criterion
    tried over the whole list before the next one. *)
Definition findUnitBySymbol_prioritized (symbol : string) (units : list Unit)
  : option Unit :=
  match find (fun u => str_eqb (usymbol u) symbol) units with
  | Some u => Some u
  | None =>
    match find (fun u => str_eqb (toLowerCase (usymbol u)) (toLowerCase symbol)) units with
    | Some u => Some u
    | None =>
      match find (fun u => existsb (fun a => str_eqb a symbol) (uabbreviations u)) units with
      | Some u => Some u
      | None =>
        find (fun u => existsb (fun a => str_eqb (toLowerCase a) (toLowerCase symbol))
                         (uabbreviations u)) units
      end
    end
  end.

(* ------------------------------------------------------------------ *)
(** ** UnitLinker: the linking loop of [linkUnits] (linkUnits.js, 31-69) *)

(** The fields of a spec type the loop reads and writes; [None] is
    [undefined]. *)
Record LinkSpec := mkLink {
  primaryUnit : option string;
  alternateUnits : option (list string);
  primaryUnitId : option string;
  primaryUnitGroupId : option string;
  alternateUnitIds : option (list string)
}.

(** [linked], [unmatched] and the [unmatchedUnits] set (in insertion order). *)
Record LinkState := mkLS {
  linked : nat;
  unmatched : nat;
  unmatchedUnits : list string
}.

(** [unmatchedUnits.add(x)] *)
Definition set_add (xs : list string) (x : string) : list string :=
  if existsb (str_eqb x) xs then xs else (xs ++ [x])%list.

Definition count_linked (st : LinkState) : LinkState :=
  mkLS (S (linked st)) (unmatched st) (unmatchedUnits st).

Definition count_unmatched (st : LinkState) (x : string) : LinkState :=
  mkLS (linked st) (S (unmatched st)) (set_add (unmatchedUnits st) x).

(** [unit.unitGroupId || undefined] *)
Definition group_or_undefined (g : option string) : option string :=
  match g with Some s => if str_eqb s "" then None else Some s | None => None end.

(** Lines 38-50. *)
Definition link_primary (units : list Unit) (s : LinkSpec) (st : LinkState)
  : LinkSpec * LinkState :=
  match primaryUnit s with
  | Some p =>
      if str_eqb p "" then (s, st)
      else match findUnitBySymbol p units with
           | Some u =>
               (mkLink (primaryUnit s) (alternateUnits s) (Some (uid u))
                  (group_or_undefined (uunitGroupId u)) (alternateUnitIds s),
                count_linked st)
           | None => (s, count_unmatched st p)
           end
  | None => (s, st)
  end.

(** One iteration of [for (const altUnit of specType.alternateUnits)]. *)
Definition link_alt (units : list Unit) (acc : list string * LinkState) (a : string)
  : list string * LinkState :=
  let '(ids, st) := acc in
  match findUnitBySymbol a units with
  | Some u => ((ids ++ [uid u])%list, count_linked st)
  | None => (ids, count_unmatched st a)
  end.

(** Lines 52-68. *)
Definition link_alternates (units : list Unit) (s : LinkSpec) (st : LinkState)
  : LinkSpec * LinkState :=
  match alternateUnits s with
  | Some ((_ :: _) as alts) =>
      let '(ids, st') := fold_left (link_alt units) alts ([], st) in
      (mkLink (primaryUnit s) (alternateUnits s) (primaryUnitId s) (primaryUnitGroupId s)
         (Some ids), st')
  | _ => (s, st)
  end.

(** The body of [for (const specType of specTypes)]: the updated spec types
    are collected in order. *)
Definition link_spec (units : list Unit) (acc : list LinkSpec * LinkState) (s : LinkSpec)
  : list LinkSpec * LinkState :=
  let '(out, st) := acc in
  let '(s1, st1) := link_primary units s st in
  let '(s2, st2) := link_alternates units s1 st1 in
  ((out ++ [s2])%list, st2).

Definition linkUnits_loop (units : list Unit) (specTypes : list LinkSpec)
  : list LinkSpec * LinkState :=
  fold_left (link_spec units) specTypes ([], mkLS 0 0 []).

(* ------------------------------------------------------------------ *)
(** ** ConversionCollector (linkUnits.js, second program, 125-133) *)

(** A JavaScript number. *)
Inductive JSNum := JFin (q : Q) | JPosInf | JNegInf | JNaN.

(** [conv.multiplier <= 0] *)
Definition js_le0 (x : JSNum) : bool :=
  match x with JFin q => Qle_bool q 0 | JNegInf => true | _ => false end.

Definition js_isFinite (x : JSNum) : bool :=
  match x with JFin _ => true | _ => false end.

(** One element of the Oracle's JSON answer: a missing or non-string field is
    [None]; a multiplier whose [typeof] is not ['number'] is [None]. *)
Record RawConv := mkRaw {
  rfrom : option string;
  rto : option string;
  rmultiplier : option JSNum;
  requation : option string
}.

(** [!x] for a string-or-undefined field. *)
Definition falsy (o : option string) : bool :=
  match o with None => true | Some s => str_eqb s "" end.

(** [s.includes('x')] *)
Fixpoint includes_x (s : string) : bool :=
  match s with
  | EmptyString => false
  | String c s' => bool_decide (c = "x"%char) || includes_x s'
  end.

Definition is_ws (c : Ascii.ascii) : bool :=
  let n := Ascii.nat_of_ascii c in
  (Nat.eqb n 32 || Nat.eqb n 9 || Nat.eqb n 10 || Nat.eqb n 11
   || Nat.eqb n 12 || Nat.eqb n 13)%bool.

Fixpoint trim_start (s : string) : string :=
  match s with
  | EmptyString => EmptyString
  | String c s' => if is_ws c then trim_start s' else s
  end.

Fixpoint rev_string (s : string) : string :=
  match s with
  | EmptyString => EmptyString
  | String c s' => rev_string s' +:+ String c EmptyString
  end.

(** [s.trim()] *)
Definition trim (s : string) : string :=
  rev_string (trim_start (rev_string (trim_start s))).

(** A conversion that passed [validateConversion]. *)
Record ValidConv := mkValid {
  vfrom : string; vto : string; vmultiplier : Q; vequation : string
}.

(** [validateConversion(conv, fromUnit, allUnits)] *)
Definition validateConversion (conv : RawConv) (fromUnit : Unit) (allUnits : list Unit)
  : option ValidConv :=
  match rfrom conv, rto conv, rmultiplier conv, requation conv with
  | Some f, Some t, Some m, Some e =>
      if falsy (Some f) || falsy (Some t) || falsy (Some e) then None
      else if negb (str_eqb f (usymbol fromUnit))
              || negb (match find (fun u => str_eqb (usymbol u) t) allUnits with
                       | Some _ => true | None => false end)
      then None
      else match m with
           | JFin q =>
               if js_le0 m || negb (js_isFinite m) || negb (includes_x e) then None
               else Some (mkValid f t q (trim e))
           | _ => None
           end
  | _, _, _, _ => None
  end.

Section Merge.

Variable generateUUID : nat -> string.

(** One iteration of [for (const convData of conversions)] (lines 256-269):
    state = (group.conversions, uuid counter). *)
Definition merge_one (groupUnits : list Unit) (fromUnit : Unit)
    (st : list ConversionEquation * nat) (convData : ValidConv)
  : list ConversionEquation * nat :=
  let '(convs, n) := st in
  match find (fun u => str_eqb (usymbol u) (vto convData)) groupUnits with
  | None => st
  | Some toUnit =>
      if existsb (fun c => str_eqb (fromUnitId c) (uid fromUnit)
                           && str_eqb (toUnitId c) (uid toUnit)) convs
      then st
      else ((convs ++ [mkConv (generateUUID n) (uid fromUnit) (uid toUnit)
                         (vmultiplier convData) (vequation convData)
                         (usymbol fromUnit +:+ " to " +:+ usymbol toUnit)])%list, S n)
  end.

Definition merge_unit (groupUnits : list Unit) (fromUnit : Unit)
    (valid : list ValidConv) (st : list ConversionEquation * nat)
  : list ConversionEquation * nat :=
  fold_left (merge_one groupUnits fromUnit) valid st.

End Merge.

(** [conversions.map(c => validateConversion(c, fromUnit, groupUnits)).filter(Boolean)] *)
Definition validate_all (raw : list RawConv) (fromUnit : Unit) (groupUnits : list Unit)
  : list ValidConv :=
  omap (fun c => validateConversion c fromUnit groupUnits) raw.

(* ------------------------------------------------------------------ *)
(** ** CheckpointStore and the two phases of main (linkUnits.js, 166-288) *)

(** The checkpoint file (its [lastUpdated] timestamp is not modelled);
    [groupsClassified] is an object, kept as its list of entries in key order. *)
Record Checkpoint := mkCp {
  classificationComplete : bool;
  groupsClassified : list (string * list string);
  conversionsGroupsCompleted : list string;
  currentConversionGroupId : option string;
  unitsCompleted : list string
}.

(** [for (let i = 0; i < l.length; i += n) l.slice(i, Math.min(i + n, l.length))] *)
Fixpoint chunks_fuel {A} (fuel n : nat) (l : list A) : list (list A) :=
  match fuel with
  | O => []
  | S f => match l with
           | [] => []
           | _ => firstn n l :: chunks_fuel f n (skipn n l)
           end
  end.

Definition batches {A} (n : nat) (l : list A) : list (list A) :=
  chunks_fuel (length l) n l.




Section Phase1.

(** [classifyUnit(unit, existingGroups)] (the Oracle, with its fallback to
    ['Uncategorized'] folded in). *)
Variable classifyUnit : Unit -> list string -> string.



End Phase1.

(** [groupsNeedingConversions] (lines 222-227), as indices into [unitGroups]
    (the filter keeps the group objects themselves, which the loop mutates). *)
Definition needs_conversions (allUnits : list Unit) (cp : Checkpoint) (g : UnitGroup) : bool :=
  if existsb (str_eqb (gid g)) (conversionsGroupsCompleted cp) then false
  else let n := length (group_units allUnits g) in
       Nat.ltb (length (gconversions g)) (n * (n - 1)) && Nat.leb 2 n.

Fixpoint indices_from {A} (p : A -> bool) (i : nat) (l : list A) : list nat :=
  match l with
  | [] => []
  | x :: l' => if p x then i :: indices_from p (S i) l' else indices_from p (S i) l'
  end.

Definition groupsNeedingConversions (allUnits : list Unit) (cp : Checkpoint)
    (groups : list UnitGroup) : list nat :=
  indices_from (needs_conversions allUnits cp) 0 groups.

Definition set_progress (cp : Checkpoint) (cur : option string) (done : list string)
  : Checkpoint :=
  mkCp (classificationComplete cp) (groupsClassified cp) (conversionsGroupsCompleted cp)
       cur done.

Definition complete_group (cp : Checkpoint) (g : string) : Checkpoint :=
  mkCp (classificationComplete cp) (groupsClassified cp)
       ((conversionsGroupsCompleted cp ++ [g])%list) None [].

Section Phase2.

Variable generateUUID : nat -> string.
(** [generateConversionsFromUnit(fromUnit, toUnits, groupName)] (the Oracle,
    with its fallback to [[]] folded in). *)
Variable generateConversionsFromUnit : Unit -> list Unit -> string -> list RawConv.

(** Merging the result of one unit (lines 256-273); state = (group.conversions,
    checkpoint, uuid counter). *)
Definition process_result (groupUnits : list Unit) (g : string)
    (st : list ConversionEquation * Checkpoint * nat) (r : Unit * list ValidConv)
  : list ConversionEquation * Checkpoint * nat :=
  let '(convs, cp, n) := st in
  let '(fromUnit, valid) := r in
  let '(convs', n') := merge_unit generateUUID groupUnits fromUnit valid (convs, n) in
  (convs', set_progress cp (Some g) ((unitsCompleted cp ++ [uid fromUnit])%list), n').

(** The Oracle answer for one unit, validated (lines 248-253). *)
Definition answer (groupUnits : list Unit) (group : UnitGroup) (fromUnit : Unit)
  : Unit * list ValidConv :=
  let toUnits := filter (fun u => negb (str_eqb (uid u) (uid fromUnit))) groupUnits in
  (fromUnit, validate_all (generateConversionsFromUnit fromUnit toUnits (gname group))
                          fromUnit groupUnits).

(** One batch: all Oracle calls (logged as (group id, unit id)), then the
    merges in order. *)
Definition process_batch (groupUnits : list Unit) (group : UnitGroup)
    (st : list ConversionEquation * Checkpoint * nat * list (string * string))
    (batch : list Unit)
  : list ConversionEquation * Checkpoint * nat * list (string * string) :=
  let '(convs, cp, n, calls) := st in
  let results := map (answer groupUnits group) batch in
  let '(convs', cp', n') := fold_left (process_result groupUnits (gid group)) results (convs, cp, n) in
  (convs', cp', n', (calls ++ map (fun u => (gid group, uid u)) batch)%list).

Definition units_to_process (groupUnits : list Unit) (cp : Checkpoint) (group : UnitGroup)
  : list Unit :=
  if bool_decide (currentConversionGroupId cp = Some (gid group))
  then filter (fun u => negb (existsb (str_eqb (uid u)) (unitsCompleted cp))) groupUnits
  else groupUnits.

(** The body of [for (const [idx, group] of groupsNeedingConversions.entries())]
    (lines 235-283); [None] is the [continue] of line 242. *)
Definition process_group (allUnits : list Unit) (cp : Checkpoint) (group : UnitGroup) (n : nat)
  : option (list ConversionEquation * Checkpoint * nat * list (string * string)) :=
  let groupUnits := group_units allUnits group in
  match units_to_process groupUnits cp group with
  | [] => None
  | unitsToProcess =>
      let '(convs, cp', n', calls) :=
        fold_left (process_batch groupUnits group) (batches 20 unitsToProcess)
          (gconversions group, cp, n, []) in
      Some (convs, complete_group cp' (gid group), n', calls)
  end.

(** [if (batchGroupLimit && groupsProcessed >= batchGroupLimit) break;] *)
Definition limit_reached (limit : option nat) (processed : nat) : bool :=
  match limit with
  | Some (S _ as l) => Nat.leb l processed
  | _ => false
  end.

Fixpoint phase2_loop (allUnits : list Unit) (limit : option nat) (idxs : list nat)
    (groups : list UnitGroup) (cp : Checkpoint) (n processed : nat)
    (calls : list (string * string))
  : list UnitGroup * Checkpoint * nat * list (string * string) :=
  match idxs with
  | [] => (groups, cp, n, calls)
  | i :: rest =>
      if limit_reached limit processed then (groups, cp, n, calls)
      else match groups !! i with
           | None => phase2_loop allUnits limit rest groups cp n processed calls
           | Some group =>
               match process_group allUnits cp group n with
               | None => phase2_loop allUnits limit rest groups cp n processed calls
               | Some (convs, cp', n', calls') =>
                   phase2_loop allUnits limit rest
                     (<[i := set_conversions group convs]> groups) cp' n' (S processed)
                     (calls ++ calls')%list
               end
           end
  end.

(** PHASE 2 after the groups have been set up (lines 222-284). *)
Definition phase2 (allUnits : list Unit) (limit : option nat) (groups : list UnitGroup)
    (cp : Checkpoint) (n : nat)
  : list UnitGroup * Checkpoint * nat * list (string * string) :=
  phase2_loop allUnits limit (groupsNeedingConversions allUnits cp groups) groups cp n 0 [].

End Phase2.

(* ------------------------------------------------------------------ *)
(** ** loadCheckpoint (linkUnits.js, second program, 146-157) *)

(** A value produced by [JSON.parse]; object members in source order. *)
Inductive json :=
| JNull
| JBool (b : bool)
| JNumber (q : Q)
| JString (s : string)
| JArray (l : list json)
| JObject (members : list (string * json)).

(** The state of output/conversions-checkpoint.json on disk. *)
Inductive FileState :=
| Missing
| Unreadable              (** exists, but [readFileSync] throws *)
| Present (contents : string).

(** A computation that returns or throws. *)
Inductive Result (A : Type) := Ok (a : A) | Throw (err : string).
Arguments Ok {A} a.
Arguments Throw {A} err.

Definition bind {A B} (r : Result A) (f : A -> Result B) : Result B :=
  match r with Ok a => f a | Throw e => Throw e end.

Definition try_catch {A} (body : Result A) (handler : string -> Result A) : Result A :=
  match body with Ok a => Ok a | Throw e => handler e end.

(** [JSON.parse] keeps the last of duplicated member names. *)
Fixpoint member (k : string) (ms : list (string * json)) : option json :=
  match ms with
  | [] => None
  | (k', v) :: ms' =>
      match member k ms' with
      | Some w => Some w
      | None => if str_eqb k' k then Some v else None
      end
  end.

(** [data.classificationComplete]: [undefined] is [None]; reading a
    property of [null] throws a TypeError. *)
Definition get_property (v : json) (k : string) : Result (option json) :=
  match v with
  | JNull => Throw "TypeError"
  | JObject ms => Ok (member k ms)
  | _ => Ok None
  end.

Definition readFileSync (fs : FileState) : Result string :=
  match fs with
  | Present s => Ok s
  | _ => Throw "EIO"
  end.

Definition existsSync (fs : FileState) : bool :=
  match fs with Missing => false | _ => true end.

Section LoadCheckpoint.

(** [JSON.parse]: [None] is a SyntaxError. *)
Variable json_parse : string -> option json.
(** [new Date().toISOString()] *)
Variable now : string.

Definition JSON_parse (s : string) : Result json :=
  match json_parse s with Some v => Ok v | None => Throw "SyntaxError" end.

Definition fresh_checkpoint : json :=
  JObject [("classificationComplete", JBool false); ("groupsClassified", JObject []);
           ("conversionsGroupsCompleted", JArray []); ("currentConversionGroupId", JNull);
           ("unitsCompleted", JArray []); ("lastUpdated", JString now)].

(** The [try] block: [Ok (Some data)] is [return data]; [Ok None] falls
    through to the final return. *)
Definition load_body (fs : FileState) : Result (option json) :=
  bind (readFileSync fs) (fun text =>
  bind (JSON_parse text) (fun data =>
  bind (get_property data "classificationComplete") (fun f =>
  match f with Some _ => Ok (Some data) | None => Ok None end))).

Definition loadCheckpoint (fs : FileState) : Result json :=
  let early :=
    if existsSync fs then try_catch (load_body fs) (fun _ => Ok None) else Ok None in
  bind early (fun o => match o with Some data => Ok data | None => Ok fresh_checkpoint end).

End LoadCheckpoint.

(* ------------------------------------------------------------------ *)
(** ** DuplicateDetector (cleanupDuplicates.js) *)

(** [s.split(/\s+/)]: the pieces between maximal whitespace runs, with an
    empty piece before a leading run and after a trailing one; [""] splits
    to [[""]]. *)
Fixpoint split_ws_aux (s : string) (cur : string) (in_ws : bool) : list string :=
  match s with
  | EmptyString => [cur]
  | String c s' =>
      if is_ws c then
        if in_ws then split_ws_aux s' cur true
        else cur :: split_ws_aux s' "" true
      else split_ws_aux s' (cur +:+ String c EmptyString) false
  end.

Definition split_ws (s : string) : list string := split_ws_aux s "" false.

(** [new Set(xs)], as its elements in insertion order. *)
Fixpoint set_of (xs : list string) : list string :=
  match xs with
  | [] => []
  | x :: xs' => x :: filter (fun y => negb (str_eqb y x)) (set_of xs')
  end.

(** The similarity with [toLowerCase] and [split(/\s+/)] as parameters
    [lower] and [split]: JavaScript lowers by the Unicode case tables and
    its [\s] also matches U+00A0, U+FEFF, U+2028, U+2029, U+3000 and the
    other Unicode spaces; [toLowerCase] and [split_ws] above are the two
    functions on ASCII strings. *)
Section Similarity.
Variable lower : string -> string.
Variable split : string -> list string.

(** [calculateStringSimilarity(str1, str2)] (lines 9-15). *)
Definition calculateStringSimilarity_by (str1 str2 : string) : Q :=
  let words1 := set_of (split (lower str1)) in
  let words2 := set_of (split (lower str2)) in
  let intersection := set_of (filter (fun x => existsb (str_eqb x) words2) words1) in
  let union := set_of (words1 ++ words2) in
  ((inject_Z (Z.of_nat (length intersection)) / inject_Z (Z.of_nat (length union))) * 100)%Q.

Record SpecType := mkSpec {
  sid : string;
  primaryName : string;
  domain : string;
  sdescription : string
}.

Record Candidate := mkCand {
  spec1 : SpecType;
  spec2 : SpecType;
  stringSimilarity : Q
}.


(** [byDomain[spec.domain].push(spec)] over all specs whose domain is not an
    [object_member]: one bucket per domain, in insertion order, each bucket
    in push order. ([Object.entries] lists integer-like keys first; the
    order of the buckets is not used below.) *)
Fixpoint domain_push (acc : list (string * list SpecType)) (s : SpecType)
  : list (string * list SpecType) :=
  match acc with
  | [] => [(domain s, [s])]
  | (d, ss) :: rest =>
      if str_eqb d (domain s) then (d, (ss ++ [s])%list) :: rest
      else (d, ss) :: domain_push rest s
  end.

Definition byDomain (specTypes : list SpecType) : list (string * list SpecType) :=
  fold_left domain_push specTypes [].

(** [for (let j = i + 1; ...)] for one [specs[i]]. *)
Definition cands_from_by (x : SpecType) (rest : list SpecType) : list Candidate :=
  omap (fun y => let sim := calculateStringSimilarity_by (primaryName x) (primaryName y) in
                 if Qle_bool 30 sim then Some (mkCand x y sim) else None) rest.

(** [for (let i = 0; i < specs.length; i++) for (let j = i + 1; ...)] *)
Fixpoint cands_in_by (specs : list SpecType) : list Candidate :=
  match specs with
  | [] => []
  | x :: rest => (cands_from_by x rest ++ cands_in_by rest)%list
  end.

(** Step 2 of [findSemanticDuplicates] (lines 107-123). *)
Definition find_candidates_by (specTypes : list SpecType) : list Candidate :=
  concat (map (fun '(_, specs) => cands_in_by specs) (byDomain specTypes)).

End Similarity.

(** The similarity and the candidates with the ASCII functions. *)
Definition calculateStringSimilarity (str1 str2 : string) : Q :=
  calculateStringSimilarity_by toLowerCase split_ws str1 str2.

Definition find_candidates (specTypes : list SpecType) : list Candidate :=
  find_candidates_by toLowerCase split_ws specTypes.




(** One Oracle verdict in the requested format: [pairIndex] and
    [similarity] JSON numbers, [areDuplicates] a boolean. [pairIndex] is
    [Some k] when the number is the integer k >= 0 (or -0), the keys
    [batch[k]] reads, and [None] when it is negative or fractional, for
    which [batch[result.pairIndex]] is [undefined]; [vsimilarity] is the
    value of the double the similarity parses to, compared exactly with 85
    as [>=] compares doubles. *)
Record Verdict := mkVerdict {
  pairIndex : option nat;
  areDuplicates : bool;
  vsimilarity : Q;
  reason : string
}.

Record DuplicateGroup := mkDup {
  dsimilarity : Q;
  dreason : string;
  dspecTypes : list SpecType
}.

(** The loop [for (const result of results)] (lines 49-58); [Throw] is the
    TypeError of [cand.spec1] on [cand === undefined], carrying the groups
    pushed before it. *)
Fixpoint record_verdicts (batch : list Candidate) (results : list Verdict)
    (acc : list DuplicateGroup) : Result (list DuplicateGroup) * list DuplicateGroup :=
  match results with
  | [] => (Ok acc, acc)
  | result :: rest =>
      if areDuplicates result || Qle_bool 85 (vsimilarity result) then
        match match pairIndex result with Some k => nth_error batch k | None => None end with
        | None => (Throw "TypeError", acc)
        | Some cand =>
            record_verdicts batch rest
              ((acc ++ [mkDup (vsimilarity result) (reason result) [spec1 cand; spec2 cand]])%list)
        end
      else record_verdicts batch rest acc
  end.

Section Detect.

(** [askClaudeJSON(prompt, ...)] for one batch: [None] if it throws. *)
Variable confirmDuplicates : list Candidate -> option (list Verdict).

(** One batch inside [try { ... } catch { ... }]: the groups pushed are
    kept even when the loop throws. *)
Definition confirm_batch (acc : list DuplicateGroup) (batch : list Candidate)
  : list DuplicateGroup :=
  match confirmDuplicates batch with
  | None => acc
  | Some results => snd (record_verdicts batch results acc)
  end.

(** [batchDetectDuplicates(candidates, total)] (lines 19-87). *)
Definition batchDetectDuplicates (candidates : list Candidate) : list DuplicateGroup :=
  fold_left confirm_batch (batches 10 candidates) [].

(** [findSemanticDuplicates(specTypes)] (lines 91-132). *)
Definition findSemanticDuplicates (specTypes : list SpecType) : list DuplicateGroup :=
  match find_candidates specTypes with
  | [] => []
  | candidates => batchDetectDuplicates candidates
  end.

End Detect.

(* ------------------------------------------------------------------ *)
(** ** validateSpecTypes (utils/validator.ts, 7-167) *)

(** The fields of a spec type the validator reads; [None] is [undefined]. *)
Record VSpec := mkVSpec {
  vprimaryName : string;
  valternateNames : list string;
  vnotNames : list string;
  vvalueType : string;
  vvalueOptions : option (list string);
  vminValue : option Q;
  vmaxValue : option Q;
  vdescription : string;
  vdomain : string
}.

(** The answer parsed from one comparison: the truthiness of
    [result.areDuplicates], [result.similarity] ([None] when it is not a
    number, so that [>= 85] is false) and [result.reason]. *)
Record PairResult := mkPair {
  pr_areDuplicates : bool;
  pr_similarity : option Q;
  pr_reason : option string
}.

Record SemDup := mkSemDup {
  sd_specType1 : string;
  sd_specType2 : string;
  sd_similarity : option Q;
  sd_reason : option string
}.

Record ValidationReport := mkReport {
  totalSpecTypes : nat;
  exactDuplicates : list (string * string);
  semanticDuplicates : list SemDup;
  missingAlternateNames : list string;
  missingNotNames : list string;
  invalidValueTypes : list string;
  warnings : list string;
  errors : list string
}.

(** The double quote character. *)
Definition dq : string := String (Ascii.ascii_of_nat 34) EmptyString.

(** Lines 22-33: state = (nameMap, exactDuplicates). *)
Definition exact_step (st : gmap string VSpec * list (string * string)) (spec : VSpec)
  : gmap string VSpec * list (string * string) :=
  let '(nameMap, dups) := st in
  let lowerName := toLowerCase (vprimaryName spec) in
  match nameMap !! lowerName with
  | Some first => (nameMap, (dups ++ [(vprimaryName first, vprimaryName spec)])%list)
  | None => (<[lowerName := spec]> nameMap, dups)
  end.

Definition exact_duplicates (specTypes : list VSpec) : list (string * string) :=
  snd (fold_left exact_step specTypes (∅, [])).

(** Lines 36-43. *)
Definition alt_step (st : list string * list string) (spec : VSpec) : list string * list string :=
  let '(missing, ws) := st in
  match valternateNames spec with
  | [] => ((missing ++ [vprimaryName spec])%list,
           (ws ++ ["Spec type " +:+ dq +:+ vprimaryName spec +:+ dq +:+ " has no alternate names"])%list)
  | _ => st
  end.

(** Lines 46-53. *)
Definition not_step (st : list string * list string) (spec : VSpec) : list string * list string :=
  let '(missing, ws) := st in
  match vnotNames spec with
  | [] => ((missing ++ [vprimaryName spec])%list,
           (ws ++ ["Spec type " +:+ dq +:+ vprimaryName spec +:+ dq
                   +:+ " has no " +:+ dq +:+ "not names" +:+ dq +:+ " for disambiguation"])%list)
  | _ => st
  end.

(** [spec.valueType === 'SELECT' || spec.valueType === 'MULTI_SELECT'] and
    [!spec.valueOptions || spec.valueOptions.length === 0]. *)
Definition is_select (spec : VSpec) : bool :=
  str_eqb (vvalueType spec) "SELECT" || str_eqb (vvalueType spec) "MULTI_SELECT".

Definition no_options (spec : VSpec) : bool :=
  match vvalueOptions spec with None => true | Some [] => true | Some _ => false end.

(** [spec.valueType === 'NUMERIC' && minValue !== undefined &&
    maxValue !== undefined && minValue > maxValue] *)
Definition bad_range (spec : VSpec) : bool :=
  str_eqb (vvalueType spec) "NUMERIC" &&
  match vminValue spec, vmaxValue spec with
  | Some lo, Some hi => Qltb hi lo
  | _, _ => false
  end.

(** Lines 56-77: state = (invalidValueTypes, errors). *)
Definition value_step (st : list string * list string) (spec : VSpec) : list string * list string :=
  let '(invalid, errs) := st in
  let '(invalid1, errs1) :=
    if is_select spec && no_options spec then
      ((invalid ++ [vprimaryName spec])%list,
       (errs ++ ["Spec type " +:+ dq +:+ vprimaryName spec +:+ dq +:+ " is "
                 +:+ vvalueType spec +:+ " but has no value options"])%list)
    else (invalid, errs) in
  if bad_range spec then
    (invalid1, (errs1 ++ ["Spec type " +:+ dq +:+ vprimaryName spec +:+ dq
                          +:+ " has minValue > maxValue"])%list)
  else (invalid1, errs1).

Section Validate.

(** [askClaude(prompt, ...)] on the prompt built from the two spec types,
    followed by the fence stripping and [JSON.parse] of lines 140-147:
    [None] when any of them throws. *)
Variable compareSpecs : VSpec -> VSpec -> option PairResult.

(** The body of the inner loop, inside its [try] (lines 107-162). *)
Definition sem_entry (spec1 spec2 : VSpec) : option SemDup :=
  match compareSpecs spec1 spec2 with
  | None => None
  | Some result =>
      if pr_areDuplicates result ||
         match pr_similarity result with Some q => Qle_bool 85 q | None => false end
      then Some (mkSemDup (vprimaryName spec1) (vprimaryName spec2)
                          (pr_similarity result) (pr_reason result))
      else None
  end.

Definition sem_step (spec1 : VSpec) (acc : list SemDup) (spec2 : VSpec) : list SemDup :=
  match sem_entry spec1 spec2 with
  | Some d => (acc ++ [d])%list
  | None => acc
  end.

(** [for (let i = 0; ...) for (let j = i + 1; ...)] *)
Fixpoint sem_loop (specs : list VSpec) (acc : list SemDup) : list SemDup :=
  match specs with
  | [] => acc
  | spec1 :: rest => sem_loop rest (fold_left (sem_step spec1) rest acc)
  end.

Definition detectSemanticDuplicates (specTypes : list VSpec) : list SemDup :=
  sem_loop specTypes [].

Definition validateSpecTypes (specTypes : list VSpec) : ValidationReport :=
  let dups := exact_duplicates specTypes in
  let '(missingAlt, ws1) := fold_left alt_step specTypes ([], []) in
  let '(missingNot, ws2) := fold_left not_step specTypes ([], ws1) in
  let '(invalid, errs) := fold_left value_step specTypes ([], []) in
  let sem := if Nat.ltb 1 (length specTypes) then detectSemanticDuplicates specTypes else [] in
  mkReport (length specTypes) dups sem missingAlt missingNot invalid ws2 errs.

End Validate.

(* ------------------------------------------------------------------ *)
(** ** The closure example of the spec *)

(** [e] is an equation from [f] to [t] with multiplier [m]. *)
Definition is_edge (e : ConversionEquation) (f t : string) (m : Q) : Prop :=
  fromUnitId e = f /\ toUnitId e = t /\ (multiplier e == m)%Q.

(** A potential for the units A, B, C of the example: p(A)=1, p(B)=2,
    p(C)=6, so that every edge (x,y) there is p(y)/p(x). *)
Definition pot3 (a b : string) (x : string) : Q :=
  if str_eqb x a then 1%Q else if str_eqb x b then 2%Q else 6%Q.

(** Concrete data for the example: units A, B, C and their direct edges. *)
Definition unitA : Unit := mkUnit "A" "A" [] None.
Definition unitB : Unit := mkUnit "B" "B" [] None.
Definition unitC : Unit := mkUnit "C" "C" [] None.
Definition edgeAB : ConversionEquation := mkConv "e1" "A" "B" 2 "x * 2" "A to B".
Definition edgeBC : ConversionEquation := mkConv "e2" "B" "C" 3 "x * 3" "B to C".
Definition edgeBA : ConversionEquation := mkConv "e3" "B" "A" (1 # 2) "x * 0.5" "B to A".
Definition edgeCB : ConversionEquation := mkConv "e4" "C" "B" (1 # 3) "x * 0.333" "C to B".
Definition uuid_stub (n : nat) : string := "generated".
Definition show_stub (q : Q) : string := "m".

(** The numbers 0.1, 9.9, 3 and 0.33 as JSON gives them; [edge_033]
    carries the exact value of the double 0.33 parses to. *)
Definition edge_tenth : ConversionEquation := mkConv "e7" "A" "B" (1 # 10) "x * 0.1" "A to B".
Definition edge_99tenths : ConversionEquation := mkConv "e8" "B" "A" (99 # 10) "x * 9.9" "B to A".
Definition edge_three : ConversionEquation := mkConv "e9" "A" "B" 3 "x * 3" "A to B".
Definition edge_033 : ConversionEquation :=
  mkConv "e10" "B" "A" (5944751508129055 # 18014398509481984) "x * 0.33" "B to A".

Definition edgeAB3 : ConversionEquation := mkConv "e5" "A" "B" 3 "x * 3" "A to B".
Definition selfA5 : ConversionEquation := mkConv "e6" "A" "A" 5 "x * 5" "A to A".

(** The multiplier the direct seeding leaves at key [x], starting from [o]:
    the one of the last direct equation with that key. *)
Definition last_direct_from (o : option Q) (cs : list ConversionEquation) (x : string)
  : option Q :=
  fold_left (fun o c => if str_eqb (key (fromUnitId c) (toUnitId c)) x
                        then Some (multiplier c) else o) cs o.

(** ASCII strings (the unit ids for which [key] is injective). *)
Fixpoint is_ascii (s : string) : bool :=
  match s with
  | EmptyString => true
  | String c s' => Nat.ltb (Ascii.nat_of_ascii c) 128 && is_ascii s'
  end.

Definition incl_tbl (m m' : gmap string Q) : Prop :=
  forall x q, m !! x = Some q -> m' !! x = Some q.

Definition has_key (x : string) (m : gmap string Q) : Prop := is_Some (m !! x).

(** Every entry (x,y) of the table, for x and y in [S], is p(y)/p(x). *)
Definition consistent (S : list string) (p : string -> Q) (m : gmap string Q) : Prop :=
  forall x y q, In x S -> In y S -> m !! key x y = Some q -> (q == p y / p x)%Q.

(** What an emitted equation is: the first existing equation of its pair, or
    a fresh one carrying the table's multiplier. *)
Definition emitted_from (cs : list ConversionEquation) (tbl : gmap string Q)
    (us : list Unit) (e : ConversionEquation) : Prop :=
  exists f t, In f us /\ In t us /\ uid f <> uid t /\
    fromUnitId e = uid f /\ toUnitId e = uid t /\
    (find_conv cs (uid f) (uid t) = Some e \/
     (find_conv cs (uid f) (uid t) = None /\
      tbl !! key (uid f) (uid t) = Some (multiplier e))).

(** ** A run of the linker's Phase 2 on a group of two units *)

(** Oracle answers: A→B, a self-edge A→A, and B→A. *)
Definition rawAB : RawConv := mkRaw (Some "A") (Some "B") (Some (JFin 2)) (Some "x * 2").
Definition rawAA : RawConv := mkRaw (Some "A") (Some "A") (Some (JFin 1)) (Some "x * 1").
Definition rawBA : RawConv := mkRaw (Some "B") (Some "A") (Some (JFin (1 # 2))) (Some "x * 0.5").

Definition oracle_self (fromUnit : Unit) (toUnits : list Unit) (groupName : string)
  : list RawConv :=
  if str_eqb (uid fromUnit) "A" then [rawAB; rawAA] else [rawBA].

Definition groupAB : UnitGroup := mkGroup "ug-ab" "AB" "Custom MEP AB" ["A"; "B"] [].

(** The checkpoint [loadCheckpoint] returns when there is none. *)
Definition cp_fresh : Checkpoint := mkCp false [] [] None [].

(** ** The validator edge by edge *)

(** Whether the loop of [validateConversions] counts [c] as valid. *)
Definition edge_ok (cs : list ConversionEquation) (c : ConversionEquation) : bool :=
  match find_reverse cs c with
  | Some r => inverse_ok (double_product (multiplier c) (multiplier r))
  | None => false
  end.

(** The warning, if any, the loop prints for [c]. *)
Definition edge_warnings (cs : list ConversionEquation) (c : ConversionEquation)
  : list Warning :=
  match find_reverse cs c with
  | Some r => if inverse_ok (double_product (multiplier c) (multiplier r)) then []
              else [InverseMismatch (fromUnitId c) (toUnitId c)
                      (double_product (multiplier c) (multiplier r))]
  | None => [MissingReverse (fromUnitId c) (toUnitId c)]
  end.

(** What [ensureCompleteConversions] writes for one group [g]: its closure
    (with some value of the uuid counter) when it has fewer than N×(N−1)
    equations, [g] itself otherwise. *)
Definition ensure_written (generateUUID : nat -> string) (num_to_string : Q -> string)
    (allUnits : list Unit) (g g' : UnitGroup) : Prop :=
  let N := length (group_units allUnits g) in
  (length (gconversions g) < N * (N - 1) -> exists n,
     g' = set_conversions g (generateCompleteConversions generateUUID num_to_string
                               (group_units allUnits g) (gconversions g) n)) /\
  (N * (N - 1) <= length (gconversions g) -> g' = g).

(** ** Units of the linker examples *)

Definition gpmUnit : Unit := mkUnit "u-gpm" "GPM" ["gal/min"] None.
Definition unit_gpm_lower : Unit := mkUnit "u1" "gpm" [] None.
Definition unit_GPM : Unit := mkUnit "u2" "GPM" [] None.

(** ** A [JSON.parse] for the checkpoint examples *)

(** Parses ["{}"] to the empty object and ["null"] to [null]; anything else
    is a SyntaxError. *)
Definition parse_stub (s : string) : option json :=
  if str_eqb s "{}" then Some (JObject [])
  else if str_eqb s "null" then Some JNull else None.

(** ** Duplicate detection examples *)



(** The recording rule of line 51. *)
Definition dup_rule (r : Verdict) : bool := areDuplicates r || Qle_bool 85 (vsimilarity r).

(** ** Resuming from a checkpoint *)





(** ** Reachability through existing conversions *)

(** [y] is reachable from [x] by a chain of existing conversions whose
    intermediate endpoints are among [S]. *)
Inductive reach (S : list string) (cs : list ConversionEquation) : string -> string -> Prop :=
  | reach_edge c : In c cs -> reach S cs (fromUnitId c) (toUnitId c)
  | reach_trans x y z : In y S -> reach S cs x y -> reach S cs y z -> reach S cs x z.

Definition direct (cs : list ConversionEquation) (x y : string) : Prop :=
  exists c, In c cs /\ fromUnitId c = x /\ toUnitId c = y.

(** A chain of existing conversions from [x] to [z] through the ids [l]. *)
Fixpoint chain (cs : list ConversionEquation) (x : string) (l : list string) (z : string) : Prop :=
  match l with
  | [] => direct cs x z
  | y :: l' => direct cs x y /\ chain cs y l' z
  end.

(** One iteration of the outer [k] loop of the closure. *)
Definition relax_k (us : list Unit) (k : Unit) (m : gmap string Q) : gmap string Q :=
  fold_left (fun m i => fold_left (fun m j => relax m i k j) us m) us m.

(** Warshall's invariant: once the units [P] have been the [k] of the outer
    loop, every pair of units joined by a chain through [P] has an entry. *)
Definition warshall_inv (us : list Unit) (cs : list ConversionEquation) (P : list Unit)
    (m : gmap string Q) : Prop :=
  forall i j l, In i us -> In j us -> (forall y, In y l -> In y (map uid P)) ->
    chain cs (uid i) l (uid j) -> has_key (key (uid i) (uid j)) m.

(** Every entry of the table is a self pair or a reachable pair. *)
Definition sound_inv (us : list Unit) (cs : list ConversionEquation) (m : gmap string Q) : Prop :=
  forall x, has_key x m -> exists s t, x = key s t /\ is_ascii s = true /\
    (s = t \/ reach (map uid us) cs s t).

(** ** The references the linker looks up *)

(** The unit references of a spec type, in the order the loop looks them
    up: a truthy [primaryUnit], then every alternate. *)
Definition unit_refs (s : LinkSpec) : list string :=
  ((match primaryUnit s with Some p => if str_eqb p "" then [] else [p] | None => [] end) ++
   (match alternateUnits s with Some alts => alts | None => [] end))%list.

Definition resolves (units : list Unit) (x : string) : bool :=
  match findUnitBySymbol x units with Some _ => true | None => false end.

Definition unresolved (units : list Unit) (x : string) : bool := negb (resolves units x).

(** The counters' update for one reference. *)
Definition ref_step (units : list Unit) (st : LinkState) (x : string) : LinkState :=
  if resolves units x then count_linked st else count_unmatched st x.

(** How one updated spec type relates to the original. *)
Definition link_rel (units : list Unit) (s s' : LinkSpec) : Prop :=
  primaryUnit s' = primaryUnit s /\ alternateUnits s' = alternateUnits s /\
  (forall p u, primaryUnit s = Some p -> findUnitBySymbol p units = Some u ->
     primaryUnitId s' = Some (uid u) /\
     primaryUnitGroupId s' = group_or_undefined (uunitGroupId u)) /\
  ((forall p, primaryUnit s = Some p -> findUnitBySymbol p units = None) ->
     primaryUnitId s' = primaryUnitId s /\ primaryUnitGroupId s' = primaryUnitGroupId s) /\
  (forall alts, alternateUnits s = Some alts -> alts <> [] ->
     alternateUnitIds s' = Some (omap (fun a => option_map uid (findUnitBySymbol a units)) alts)) /\
  ((forall alts, alternateUnits s = Some alts -> alts = []) ->
     alternateUnitIds s' = alternateUnitIds s).

(** ** Helpers for the validator *)

Definition nil_b {A} (l : list A) : bool := match l with [] => true | _ => false end.

Definition no_alternates (s : VSpec) : bool := nil_b (valternateNames s).

Definition no_not_names (s : VSpec) : bool := nil_b (vnotNames s).

Definition invalid_select (s : VSpec) : bool := is_select s && no_options s.

(** The pairs (l[i], l[j]) with i < j, in the order of the two loops. *)
Fixpoint all_pairs {A} (l : list A) : list (A * A) :=
  match l with
  | [] => []
  | x :: rest => (map (fun y => (x, y)) rest ++ all_pairs rest)%list
  end.


(* ================================================================== *)
(** * Proofs *)

(** ** Folds *)

Lemma fold_pres {A B} (f : A -> B -> A) (P : A -> Prop) (l : list B) (x : A) :
  (forall y b, P y -> P (f y b)) -> P x -> P (fold_left f l x).
Proof. intros Hf. revert x. induction l as [|b l IH]; simpl; auto. Qed.

Lemma fold_pres_in {A B} (f : A -> B -> A) (P : A -> Prop) (l : list B) (x : A) :
  (forall y b, In b l -> P y -> P (f y b)) -> P x -> P (fold_left f l x).
Proof.
  revert x. induction l as [|b l IH]; intros x Hf Hx; simpl; [exact Hx|].
  apply IH.
  - intros y b' Hb' Hy. apply Hf; [right; exact Hb'|exact Hy].
  - apply Hf; [left; reflexivity|exact Hx].
Qed.

(** A property established by one step of a fold, from a property every
    step keeps, survives the rest of the fold. *)
Lemma fold_hit {A B} (f : A -> B -> A) (P Q : A -> Prop) (l : list B) (b0 : B) (x : A) :
  (forall y b, P y -> P (f y b)) ->
  (forall y b, Q y -> Q (f y b)) ->
  (forall y, Q y -> P (f y b0)) ->
  In b0 l -> Q x -> P (fold_left f l x).
Proof.
  intros HP HQ Hhit. revert x. induction l as [|b l IH]; simpl; [tauto|].
  intros x [<-|Hin] Hx.
  - apply fold_pres; auto.
  - apply IH; auto.
Qed.

(** ** Keys *)


Lemma key_inj a b a' b' :
  is_ascii a = true -> is_ascii a' = true -> key a b = key a' b' -> a = a' /\ b = b'.
Proof.
  unfold key. revert a'. induction a as [|c a IH]; intros [|c' a'] Ha Ha' E; simpl in *.
  - split; [done|]. injection E. intros. done.
  - injection E as <- _. apply andb_prop in Ha' as [Hc _]. discriminate Hc.
  - injection E as -> _. apply andb_prop in Ha as [Hc _]. discriminate Hc.
  - injection E as -> E. apply andb_prop in Ha as [_ Ha]. apply andb_prop in Ha' as [_ Ha'].
    destruct (IH a' Ha Ha' E) as [-> ->]. done.
Qed.

Lemma str_eqb_true a b : str_eqb a b = true <-> a = b.
Proof. unfold str_eqb. apply bool_decide_eq_true. Qed.

Lemma str_eqb_false a b : str_eqb a b = false <-> a <> b.
Proof. unfold str_eqb. apply bool_decide_eq_false. Qed.

(** ** The multiplier table only grows *)


Lemma relax_incl m i k j : incl_tbl m (relax m i k j).
Proof.
  intros x q Hx. unfold relax.
  destruct (m !! key (uid i) (uid k)), (m !! key (uid k) (uid j)); auto.
  destruct (m !! key (uid i) (uid j)) eqn:E; auto.
  rewrite lookup_insert_ne; auto. intros <-. congruence.
Qed.

(** The step of the innermost loop either leaves the table as it is, or
    adds the product for a pair that had none. *)
Lemma relax_cases m i k j :
  relax m i k j = m \/
  exists ik kj, m !! key (uid i) (uid k) = Some ik /\ m !! key (uid k) (uid j) = Some kj /\
    m !! key (uid i) (uid j) = None /\
    relax m i k j = <[key (uid i) (uid j) := (ik * kj)%Q]> m.
Proof.
  unfold relax.
  destruct (m !! key (uid i) (uid k)) as [ik|] eqn:E1,
           (m !! key (uid k) (uid j)) as [kj|] eqn:E2; auto.
  destruct (m !! key (uid i) (uid j)) eqn:E3; auto.
  right. exists ik, kj. auto.
Qed.

Lemma incl_tbl_refl m : incl_tbl m m.
Proof. intros x q H. exact H. Qed.

Lemma incl_tbl_trans m1 m2 m3 : incl_tbl m1 m2 -> incl_tbl m2 m3 -> incl_tbl m1 m3.
Proof. intros H1 H2 x q H. auto. Qed.

Lemma relax_all_incl us m : incl_tbl m (relax_all us m).
Proof.
  unfold relax_all.
  apply (fold_pres _ (fun y => incl_tbl m y)); [|apply incl_tbl_refl].
  intros y k Hy. eapply incl_tbl_trans; [exact Hy|].
  apply (fold_pres _ (fun z => incl_tbl y z)); [|apply incl_tbl_refl].
  intros z i Hz. eapply incl_tbl_trans; [exact Hz|].
  apply (fold_pres _ (fun w => incl_tbl z w)); [|apply incl_tbl_refl].
  intros w j Hw. eapply incl_tbl_trans; [exact Hw|]. apply relax_incl.
Qed.


Lemma has_key_incl x m m' : incl_tbl m m' -> has_key x m -> has_key x m'.
Proof. intros H [q Hq]. exists q. auto. Qed.

(** Once both factors of (i,k,j) are known, the closure knows (i,j). *)
Lemma relax_all_defined us m i k j :
  In i us -> In k us -> In j us ->
  has_key (key (uid i) (uid k)) m -> has_key (key (uid k) (uid j)) m ->
  has_key (key (uid i) (uid j)) (relax_all us m).
Proof.
  intros Hi Hk Hj H1 H2. unfold relax_all.
  set (Q0 := fun y => has_key (key (uid i) (uid k)) y /\ has_key (key (uid k) (uid j)) y).
  assert (HQ : forall y, Q0 y -> forall y', incl_tbl y y' -> Q0 y').
  { intros y [A B] y' Hy. split; eapply has_key_incl; eauto. }
  assert (HP : forall y y', has_key (key (uid i) (uid j)) y -> incl_tbl y y' ->
                           has_key (key (uid i) (uid j)) y').
  { intros. eapply has_key_incl; eauto. }
  apply (fold_hit _ (has_key (key (uid i) (uid j))) Q0 us k); [| | |exact Hk|split; assumption].
  - intros y b Hy. eapply HP; [exact Hy|].
    apply (fold_pres _ (fun z => incl_tbl y z)); [|apply incl_tbl_refl].
    intros z i' Hz. eapply incl_tbl_trans; [exact Hz|].
    apply (fold_pres _ (fun w => incl_tbl z w)); [|apply incl_tbl_refl].
    intros w j' Hw. eapply incl_tbl_trans; [exact Hw|]. apply relax_incl.
  - intros y b Hy. eapply HQ; [exact Hy|].
    apply (fold_pres _ (fun z => incl_tbl y z)); [|apply incl_tbl_refl].
    intros z i' Hz. eapply incl_tbl_trans; [exact Hz|].
    apply (fold_pres _ (fun w => incl_tbl z w)); [|apply incl_tbl_refl].
    intros w j' Hw. eapply incl_tbl_trans; [exact Hw|]. apply relax_incl.
  - intros y Hy.
    apply (fold_hit _ (has_key (key (uid i) (uid j))) Q0 us i); [| | |exact Hi|exact Hy].
    + intros z b Hz. eapply HP; [exact Hz|].
      apply (fold_pres _ (fun w => incl_tbl z w)); [|apply incl_tbl_refl].
      intros w j' Hw. eapply incl_tbl_trans; [exact Hw|]. apply relax_incl.
    + intros z b Hz. eapply HQ; [exact Hz|].
      apply (fold_pres _ (fun w => incl_tbl z w)); [|apply incl_tbl_refl].
      intros w j' Hw. eapply incl_tbl_trans; [exact Hw|]. apply relax_incl.
    + intros z Hz.
      apply (fold_hit _ (has_key (key (uid i) (uid j))) Q0 us j); [| | |exact Hj|exact Hz].
      * intros w b Hw. eapply HP; [exact Hw|]. apply relax_incl.
      * intros w b Hw. eapply HQ; [exact Hw|]. apply relax_incl.
      * intros w [[ik Hik] [kj Hkj]]. unfold relax, has_key.
        rewrite Hik, Hkj. destruct (w !! key (uid i) (uid j)) eqn:E.
        -- rewrite E. eauto.
        -- rewrite lookup_insert_eq. eauto.
Qed.

(** ** Multiplicative consistency of the table

    If every seeded entry (x,y) equals [p y / p x] for a potential [p] on the
    unit ids, so does every entry the closure derives. *)

Section Potential.

Variable S : list string.
Variable p : string -> Q.
Hypothesis HS : forall x, In x S -> is_ascii x = true.
Hypothesis Hp : forall x, In x S -> ~ (p x == 0)%Q.

Local Abbreviation consistent_m := (consistent S p).


Lemma consistent_insert m x y q :
  In x S -> In y S -> (q == p y / p x)%Q -> consistent_m m ->
  consistent_m (<[key x y := q]> m).
Proof.
  intros Hx Hy Hq Hm x' y' q' Hx' Hy' E.
  destruct (decide (key x y = key x' y')) as [Eq|Ne].
  - destruct (key_inj _ _ _ _ (HS x Hx) (HS x' Hx') Eq) as [<- <-].
    rewrite lookup_insert_eq in E. injection E as <-. exact Hq.
  - rewrite lookup_insert_ne in E by exact Ne. eauto.
Qed.

Lemma relax_consistent m i k j :
  In (uid i) S -> In (uid k) S -> In (uid j) S ->
  consistent_m m -> consistent_m (relax m i k j).
Proof.
  intros Hi Hk Hj Hm.
  destruct (relax_cases m i k j) as [->|(ik & kj & E1 & E2 & _ & ->)]; [exact Hm|].
  apply consistent_insert; auto.
  pose proof (Hm _ _ _ Hi Hk E1) as H1. pose proof (Hm _ _ _ Hk Hj E2) as H2.
  rewrite H1, H2. field. split; apply Hp; auto.
Qed.

Lemma relax_all_consistent us m :
  (forall u, In u us -> In (uid u) S) -> consistent_m m -> consistent_m (relax_all us m).
Proof.
  intros HU Hm. unfold relax_all.
  apply fold_pres_in; [|exact Hm]. intros y k Hk Hy.
  apply fold_pres_in; [|exact Hy]. intros z i Hi Hz.
  apply fold_pres_in; [|exact Hz]. intros w j Hj Hw.
  apply relax_consistent; auto.
Qed.

Lemma consistent_empty : consistent_m ∅.
Proof. intros x y q _ _ E. rewrite lookup_empty in E. discriminate. Qed.

Lemma seed_self_consistent m us :
  (forall u, In u us -> In (uid u) S) -> consistent_m m -> consistent_m (seed_self m us).
Proof.
  intros HU Hm. unfold seed_self. apply fold_pres_in; [|exact Hm].
  intros y u Hu Hy. apply consistent_insert; auto.
  field. apply Hp; auto.
Qed.

Lemma seed_direct_consistent m cs :
  (forall c, In c cs -> In (fromUnitId c) S /\ In (toUnitId c) S /\
                        (multiplier c == p (toUnitId c) / p (fromUnitId c))%Q) ->
  consistent_m m -> consistent_m (seed_direct m cs).
Proof.
  intros HC Hm. unfold seed_direct. apply fold_pres_in; [|exact Hm].
  intros y c Hc Hy. destruct (HC c Hc) as (H1 & H2 & H3).
  apply consistent_insert; auto.
Qed.

Lemma closure_table_consistent us cs :
  (forall u, In u us -> In (uid u) S) ->
  (forall c, In c cs -> In (fromUnitId c) S /\ In (toUnitId c) S /\
                        (multiplier c == p (toUnitId c) / p (fromUnitId c))%Q) ->
  consistent_m (closure_table us cs).
Proof.
  intros HU HC. unfold closure_table.
  apply relax_all_consistent; [exact HU|].
  apply seed_self_consistent; [exact HU|].
  apply seed_direct_consistent; [exact HC|apply consistent_empty].
Qed.

End Potential.

(** ** Seeding *)

Lemma insert_has_key x k q (m : gmap string Q) : has_key x m -> has_key x (<[k := q]> m).
Proof.
  intros [q' Hq']. unfold has_key. destruct (decide (k = x)) as [<-|Ne].
  - rewrite lookup_insert_eq. eauto.
  - rewrite lookup_insert_ne by exact Ne. eauto.
Qed.

Lemma seed_direct_has_key m cs c :
  In c cs -> has_key (key (fromUnitId c) (toUnitId c)) (seed_direct m cs).
Proof.
  intros Hc. unfold seed_direct.
  apply (fold_hit _ _ (fun _ => True) cs c); auto.
  - intros y b Hy. apply insert_has_key. exact Hy.
  - intros y _. unfold has_key. rewrite lookup_insert_eq. eauto.
Qed.

Lemma seed_self_has_key m us x : has_key x m -> has_key x (seed_self m us).
Proof.
  intros H. unfold seed_self. apply fold_pres; [|exact H].
  intros y u Hy. apply insert_has_key. exact Hy.
Qed.

Lemma has_key_closure_table us cs c :
  In c cs -> has_key (key (fromUnitId c) (toUnitId c)) (relax_all us (seed_self (seed_direct ∅ cs) us)).
Proof.
  intros Hc. eapply has_key_incl; [apply relax_all_incl|].
  apply seed_self_has_key. apply seed_direct_has_key. exact Hc.
Qed.

(** ** Emission of the conversion list *)

Section Emit.

Variable generateUUID : nat -> string.
Variable num_to_string : Q -> string.

Lemma emit_pair_mono cs tbl f t st e :
  In e (fst st) -> In e (fst (emit_pair generateUUID num_to_string cs tbl f t st)).
Proof.
  destruct st as [acc n]. simpl. intros H. unfold emit_pair.
  destruct (str_eqb (uid f) (uid t)); [exact H|].
  destruct (tbl !! key (uid f) (uid t)); [|exact H].
  destruct (find_conv cs (uid f) (uid t)); simpl; apply in_or_app; left; exact H.
Qed.


Lemma find_conv_spec cs f t e :
  find_conv cs f t = Some e -> In e cs /\ fromUnitId e = f /\ toUnitId e = t.
Proof.
  unfold find_conv. intros H. apply find_some in H as [Hin H].
  apply andb_prop in H as [H1 H2]. apply str_eqb_true in H1, H2. auto.
Qed.

Lemma emit_all_elems us cs tbl n0 e :
  In e (fst (emit_all generateUUID num_to_string us cs tbl n0)) -> emitted_from cs tbl us e.
Proof.
  unfold emit_all.
  apply (fold_pres_in _ (fun st => In e (fst st) -> emitted_from cs tbl us e)); [|simpl; tauto].
  intros st f Hf Hst.
  apply (fold_pres_in _ (fun st => In e (fst st) -> emitted_from cs tbl us e)); [|exact Hst].
  intros st' t Ht Hst'. destruct st' as [acc n]. unfold emit_pair.
  destruct (str_eqb (uid f) (uid t)) eqn:Eft; [exact Hst'|].
  apply str_eqb_false in Eft.
  destruct (tbl !! key (uid f) (uid t)) as [m|] eqn:Et; [|exact Hst'].
  destruct (find_conv cs (uid f) (uid t)) as [ex|] eqn:Ef; simpl;
    intros [Hin|Hin]%in_app_or; try (apply Hst'; exact Hin).
  - destruct Hin as [<-|[]]. destruct (find_conv_spec _ _ _ _ Ef) as (_ & E1 & E2).
    exists f, t. repeat split; auto.
  - destruct Hin as [<-|[]]. exists f, t. simpl. repeat split; auto.
Qed.

Lemma emit_all_hit us cs tbl n0 f t q :
  In f us -> In t us -> uid f <> uid t -> tbl !! key (uid f) (uid t) = Some q ->
  exists e, In e (fst (emit_all generateUUID num_to_string us cs tbl n0)) /\
    fromUnitId e = uid f /\ toUnitId e = uid t /\
    (find_conv cs (uid f) (uid t) = Some e \/
     (find_conv cs (uid f) (uid t) = None /\ multiplier e = q)).
Proof.
  intros Hf Ht Hne Hq. unfold emit_all.
  set (P := fun st : list ConversionEquation * nat => exists e, In e (fst st) /\
    fromUnitId e = uid f /\ toUnitId e = uid t /\
    (find_conv cs (uid f) (uid t) = Some e \/
     (find_conv cs (uid f) (uid t) = None /\ multiplier e = q))).
  assert (HPt : forall st t', P st -> P (emit_pair generateUUID num_to_string cs tbl f t' st)).
  { intros st t' (e & He & H). exists e. split; [apply emit_pair_mono; exact He|exact H]. }
  apply (fold_hit _ P (fun _ => True) us f); auto.
  - intros st b Hst. apply fold_pres; [|exact Hst].
    intros st' t' (e & He & H). exists e. split; [apply emit_pair_mono; exact He|exact H].
  - intros st _. apply (fold_hit _ P (fun _ => True) us t); auto.
    intros [acc n] _. unfold emit_pair.
    apply str_eqb_false in Hne. rewrite Hne, Hq.
    destruct (find_conv cs (uid f) (uid t)) as [ex|] eqn:Ef.
    + exists ex. destruct (find_conv_spec _ _ _ _ Ef) as (_ & E1 & E2).
      simpl. rewrite in_app_iff. simpl. auto.
    + eexists. simpl. rewrite in_app_iff. simpl. split; [right; left; reflexivity|].
      simpl. auto.
Qed.

End Emit.

Lemma two_le_length {A} (l : list A) x y : In x l -> In y l -> x <> y -> 2 <= length l.
Proof.
  destruct l as [|a [|b l]]; simpl; try tauto.
  - intros [<-|[]] [<-|[]]. tauto.
  - intros. lia.
Qed.

(** ** Derived pairs in the output of the closure *)

Lemma closure_derived (generateUUID : nat -> string) (num_to_string : Q -> string)
    (S : list string) (p : string -> Q) (us : list Unit) (cs : list ConversionEquation)
    (n0 : nat) (f k t : Unit) :
  (forall x, In x S -> is_ascii x = true) -> (forall x, In x S -> ~ (p x == 0)%Q) ->
  (forall u, In u us -> In (uid u) S) ->
  (forall c, In c cs -> In (fromUnitId c) S /\ In (toUnitId c) S /\
                        (multiplier c == p (toUnitId c) / p (fromUnitId c))%Q) ->
  In f us -> In k us -> In t us -> uid f <> uid t ->
  has_key (key (uid f) (uid k)) (seed_self (seed_direct ∅ cs) us) ->
  has_key (key (uid k) (uid t)) (seed_self (seed_direct ∅ cs) us) ->
  find_conv cs (uid f) (uid t) = None ->
  let out := generateCompleteConversions generateUUID num_to_string us cs n0 in
  (exists e, In e out /\ fromUnitId e = uid f /\ toUnitId e = uid t /\
             (multiplier e == p (uid t) / p (uid f))%Q) /\
  (forall e, In e out -> fromUnitId e = uid f -> toUnitId e = uid t ->
             (multiplier e == p (uid t) / p (uid f))%Q).
Proof.
  intros HS Hp HU HC Hf Hk Ht Hne H1 H2 Hnone out.
  assert (Hlen : 2 <= length us) by (apply (two_le_length _ f t); auto; congruence).
  assert (Hcons : consistent S p (closure_table us cs))
    by (apply closure_table_consistent; auto).
  unfold out, generateCompleteConversions, generateCompleteConversions_st.
  replace (Nat.ltb (length us) 2) with false by (symmetry; apply Nat.ltb_ge; lia).
  split.
  - destruct (relax_all_defined us _ f k t Hf Hk Ht H1 H2) as [q Hq].
    destruct (emit_all_hit generateUUID num_to_string us cs (closure_table us cs) n0 f t q
                Hf Ht Hne Hq) as (e & He & E1 & E2 & [Hs|[_ Hm]]).
    + congruence.
    + exists e. repeat split; auto. rewrite Hm. apply (Hcons _ _ _ (HU f Hf) (HU t Ht) Hq).
  - intros e He E1 E2.
    destruct (emit_all_elems _ _ _ _ _ _ _ He) as (f' & t' & Hf' & Ht' & _ & E1' & E2' & Hor).
    rewrite E1 in E1'. rewrite E2 in E2'. rewrite <- E1', <- E2' in Hor.
    destruct Hor as [Hs|[_ Hm]]; [congruence|].
    apply (Hcons _ _ _ (HU f Hf) (HU t Ht) Hm).
Qed.

Lemma seed_key_of_edge us cs c :
  In c cs -> has_key (key (fromUnitId c) (toUnitId c)) (seed_self (seed_direct ∅ cs) us).
Proof. intros Hc. apply seed_self_has_key, seed_direct_has_key. exact Hc. Qed.

Lemma find_conv_none cs f t :
  (forall e, In e cs -> fromUnitId e = f -> toUnitId e = t -> False) -> find_conv cs f t = None.
Proof.
  intros H. destruct (find_conv cs f t) as [e|] eqn:E; [|reflexivity].
  destruct (find_conv_spec _ _ _ _ E) as (Hin & E1 & E2). exfalso. eauto.
Qed.

Section ClosureExample.

Variables a b c : string.
Hypothesis Hab : a <> b.
Hypothesis Hbc : b <> c.
Hypothesis Hac : a <> c.

Lemma pot3_a : pot3 a b a = 1%Q.
Proof. unfold pot3. rewrite (proj2 (str_eqb_true a a)); reflexivity. Qed.

Lemma pot3_b : pot3 a b b = 2%Q.
Proof.
  unfold pot3. rewrite (proj2 (str_eqb_false b a)) by congruence.
  rewrite (proj2 (str_eqb_true b b)); reflexivity.
Qed.

Lemma pot3_c : pot3 a b c = 6%Q.
Proof.
  unfold pot3. rewrite (proj2 (str_eqb_false c a)) by congruence.
  rewrite (proj2 (str_eqb_false c b)) by congruence. reflexivity.
Qed.

Lemma pot3_nonzero x : In x [a; b; c] -> ~ (pot3 a b x == 0)%Q.
Proof.
  intros [<-|[<-|[<-|[]]]]; [rewrite pot3_a|rewrite pot3_b|rewrite pot3_c]; discriminate.
Qed.

Lemma is_edge_pot e x y m :
  In x [a; b; c] -> In y [a; b; c] -> is_edge e x y m ->
  (m == pot3 a b y / pot3 a b x)%Q ->
  In (fromUnitId e) [a; b; c] /\ In (toUnitId e) [a; b; c] /\
  (multiplier e == pot3 a b (toUnitId e) / pot3 a b (fromUnitId e))%Q.
Proof.
  intros Hx Hy (E1 & E2 & E3) Hm. rewrite E1, E2. repeat split; auto.
  rewrite E3. exact Hm.
Qed.

End ClosureExample.

(** C1. Closure example: over units A, B, C (distinct ASCII ids), when the
    direct list holds exactly A→B (×2) and B→C (×3), the closure yields an
    edge A→C with multiplier 6 (and every A→C edge it yields has 6); when it
    holds exactly A→B (×2), B→C (×3), B→A (×0.5) and C→B (×1/3), every C→A
    edge yielded has multiplier 1/6, and there is one. *)
Theorem closure_example (generateUUID : nat -> string) (num_to_string : Q -> string)
    (a b c : string) (us : list Unit) (n0 : nat) :
  a <> b -> b <> c -> a <> c ->
  is_ascii a = true -> is_ascii b = true -> is_ascii c = true ->
  (forall u, In u us -> uid u = a \/ uid u = b \/ uid u = c) ->
  (exists ua, In ua us /\ uid ua = a) ->
  (exists ub, In ub us /\ uid ub = b) ->
  (exists uc, In uc us /\ uid uc = c) ->
  (forall cs : list ConversionEquation,
     (forall e, In e cs -> is_edge e a b 2 \/ is_edge e b c 3) ->
     (exists e, In e cs /\ is_edge e a b 2) ->
     (exists e, In e cs /\ is_edge e b c 3) ->
     let out := generateCompleteConversions generateUUID num_to_string us cs n0 in
     (exists e, In e out /\ is_edge e a c 6) /\
     (forall e, In e out -> fromUnitId e = a -> toUnitId e = c -> (multiplier e == 6)%Q)) /\
  (forall cs : list ConversionEquation,
     (forall e, In e cs -> is_edge e a b 2 \/ is_edge e b c 3 \/
                          is_edge e b a (1 # 2) \/ is_edge e c b (1 # 3)) ->
     (exists e, In e cs /\ is_edge e a b 2) ->
     (exists e, In e cs /\ is_edge e b c 3) ->
     (exists e, In e cs /\ is_edge e b a (1 # 2)) ->
     (exists e, In e cs /\ is_edge e c b (1 # 3)) ->
     let out := generateCompleteConversions generateUUID num_to_string us cs n0 in
     (exists e, In e out /\ is_edge e c a (1 # 6)) /\
     (forall e, In e out -> fromUnitId e = c -> toUnitId e = a -> (multiplier e == 1 # 6)%Q)).
Proof.
  intros Hab Hbc Hac Ha Hb Hc HU [ua [Hua Ea]] [ub [Hub Eb]] [uc [Huc Ec]].
  pose proof (pot3_a a b) as Pa. pose proof (pot3_b a b Hab) as Pb.
  pose proof (pot3_c a b c Hbc Hac) as Pc.
  assert (HS : forall x, In x [a; b; c] -> is_ascii x = true)
    by (intros x [<-|[<-|[<-|[]]]]; auto).
  assert (HUS : forall u, In u us -> In (uid u) [a; b; c])
    by (intros u Hu; destruct (HU u Hu) as [-> | [-> | ->]]; simpl; auto).
  assert (Ina : In a [a; b; c]) by (simpl; auto).
  assert (Inb : In b [a; b; c]) by (simpl; auto).
  assert (Inc : In c [a; b; c]) by (simpl; auto).
  split.
  - intros cs Hall [eab [Heab Eab]] [ebc [Hebc Ebc]] out.
    assert (HC : forall e, In e cs -> In (fromUnitId e) [a; b; c] /\ In (toUnitId e) [a; b; c] /\
              (multiplier e == pot3 a b (toUnitId e) / pot3 a b (fromUnitId e))%Q).
    { intros e He. destruct (Hall e He) as [H|H].
      - eapply is_edge_pot; [exact Ina|exact Inb|exact H|]. rewrite Pa, Pb. reflexivity.
      - eapply is_edge_pot; [exact Inb|exact Inc|exact H|]. rewrite Pb, Pc. reflexivity. }
    assert (K1 : has_key (key (uid ua) (uid ub)) (seed_self (seed_direct ∅ cs) us)).
    { destruct Eab as (E1 & E2 & _). rewrite Ea, Eb, <- E1, <- E2. apply seed_key_of_edge. exact Heab. }
    assert (K2 : has_key (key (uid ub) (uid uc)) (seed_self (seed_direct ∅ cs) us)).
    { destruct Ebc as (E1 & E2 & _). rewrite Eb, Ec, <- E1, <- E2. apply seed_key_of_edge. exact Hebc. }
    assert (Hnone : find_conv cs (uid ua) (uid uc) = None).
    { apply find_conv_none. intros e He E1 E2. rewrite Ea in E1. rewrite Ec in E2.
      destruct (Hall e He) as [(F1 & F2 & _)|(F1 & F2 & _)]; congruence. }
    destruct (closure_derived generateUUID num_to_string [a; b; c] (pot3 a b) us cs n0 ua ub uc
                HS (pot3_nonzero a b c Hab Hbc Hac) HUS HC Hua Hub Huc ltac:(congruence) K1 K2 Hnone)
      as [[e (He & E1 & E2 & E3)] Hall'].
    rewrite Ea, Ec, Pa, Pc in *. split.
    + exists e. split; [exact He|]. split; [exact E1|]. split; [exact E2|].
      rewrite E3. reflexivity.
    + intros e' He' F1 F2. rewrite (Hall' e' He' F1 F2). reflexivity.
  - intros cs Hall [eab [Heab Eab]] [ebc [Hebc Ebc]] [eba [Heba Eba]] [ecb [Hecb Ecb]] out.
    assert (HC : forall e, In e cs -> In (fromUnitId e) [a; b; c] /\ In (toUnitId e) [a; b; c] /\
              (multiplier e == pot3 a b (toUnitId e) / pot3 a b (fromUnitId e))%Q).
    { intros e He. destruct (Hall e He) as [H|[H|[H|H]]].
      - eapply is_edge_pot; [exact Ina|exact Inb|exact H|]. rewrite Pa, Pb. reflexivity.
      - eapply is_edge_pot; [exact Inb|exact Inc|exact H|]. rewrite Pb, Pc. reflexivity.
      - eapply is_edge_pot; [exact Inb|exact Ina|exact H|]. rewrite Pa, Pb. reflexivity.
      - eapply is_edge_pot; [exact Inc|exact Inb|exact H|]. rewrite Pb, Pc. reflexivity. }
    assert (K1 : has_key (key (uid uc) (uid ub)) (seed_self (seed_direct ∅ cs) us)).
    { destruct Ecb as (E1 & E2 & _). rewrite Ec, Eb, <- E1, <- E2. apply seed_key_of_edge. exact Hecb. }
    assert (K2 : has_key (key (uid ub) (uid ua)) (seed_self (seed_direct ∅ cs) us)).
    { destruct Eba as (E1 & E2 & _). rewrite Eb, Ea, <- E1, <- E2. apply seed_key_of_edge. exact Heba. }
    assert (Hnone : find_conv cs (uid uc) (uid ua) = None).
    { apply find_conv_none. intros e He E1 E2. rewrite Ec in E1. rewrite Ea in E2.
      destruct (Hall e He) as [(F1 & F2 & _)|[(F1 & F2 & _)|[(F1 & F2 & _)|(F1 & F2 & _)]]];
        congruence. }
    destruct (closure_derived generateUUID num_to_string [a; b; c] (pot3 a b) us cs n0 uc ub ua
                HS (pot3_nonzero a b c Hab Hbc Hac) HUS HC Huc Hub Hua ltac:(congruence) K1 K2 Hnone)
      as [[e (He & E1 & E2 & E3)] Hall'].
    rewrite Ea, Ec, Pa, Pc in *. split.
    + exists e. split; [exact He|]. split; [exact E1|]. split; [exact E2|].
      rewrite E3. reflexivity.
    + intros e' He' F1 F2. rewrite (Hall' e' He' F1 F2). reflexivity.
Qed.

Lemma closure_example_witness :
  (exists e, In e (generateCompleteConversions uuid_stub show_stub [unitA; unitB; unitC]
                     [edgeAB; edgeBC] 0) /\ is_edge e "A" "C" 6) /\
  (exists e, In e (generateCompleteConversions uuid_stub show_stub [unitA; unitB; unitC]
                     [edgeAB; edgeBC; edgeBA; edgeCB] 0) /\ is_edge e "C" "A" (1 # 6)).
Proof.
  destruct (closure_example uuid_stub show_stub "A" "B" "C" [unitA; unitB; unitC] 0)
    as [H1 H2];
    [discriminate|discriminate|discriminate|reflexivity|reflexivity|reflexivity
    |intros u [<-|[<-|[<-|[]]]]; simpl; auto
    |exists unitA; simpl; auto|exists unitB; simpl; auto|exists unitC; simpl; auto|].
  split.
  - apply (H1 [edgeAB; edgeBC]).
    + intros e [<-|[<-|[]]]; [left|right]; repeat split.
    + exists edgeAB. split; [simpl; auto|repeat split].
    + exists edgeBC. split; [simpl; auto|repeat split].
  - apply (H2 [edgeAB; edgeBC; edgeBA; edgeCB]).
    + intros e [<-|[<-|[<-|[<-|[]]]]];
        [left|right; left|right; right; left|right; right; right]; repeat split.
    + exists edgeAB. split; [simpl; auto|repeat split].
    + exists edgeBC. split; [simpl; auto|repeat split].
    + exists edgeBA. split; [simpl; auto|repeat split].
    + exists edgeCB. split; [simpl; auto 10|repeat split].
Defined.

(** ** Seeding and first-write-wins *)

Lemma seed_direct_lookup m cs x :
  seed_direct m cs !! x = last_direct_from (m !! x) cs x.
Proof.
  revert m. induction cs as [|c cs IH]; intros m; simpl; [reflexivity|].
  unfold seed_direct in IH |- *. simpl. rewrite IH. f_equal.
  destruct (str_eqb (key (fromUnitId c) (toUnitId c)) x) eqn:E.
  - apply str_eqb_true in E. rewrite E, lookup_insert_eq. reflexivity.
  - apply str_eqb_false in E. rewrite lookup_insert_ne by exact E. reflexivity.
Qed.

Lemma seed_self_lookup m us x :
  seed_self m us !! x =
  if existsb (fun u => str_eqb (key (uid u) (uid u)) x) us then Some 1%Q else m !! x.
Proof.
  revert m. induction us as [|u us IH]; intros m; simpl; [reflexivity|].
  unfold seed_self in IH |- *. simpl. rewrite IH.
  destruct (str_eqb (key (uid u) (uid u)) x) eqn:E; simpl.
  - apply str_eqb_true in E. destruct existsb; [reflexivity|]. rewrite E, lookup_insert_eq. reflexivity.
  - apply str_eqb_false in E. rewrite lookup_insert_ne by exact E. reflexivity.
Qed.

(** C8 (counterexample). A seeded multiplier is overwritten by a later seed:
    a direct self-edge A→A (×5) is replaced by the identity 1, and of two
    direct edges A→B (×2, then ×3) the second replaces the first. *)
Lemma closure_seed_overwritten :
  seed_direct ∅ [selfA5] !! key "A" "A" = Some 5%Q /\
  closure_table [unitA; unitB] [selfA5] !! key "A" "A" = Some 1%Q /\
  seed_direct ∅ [edgeAB] !! key "A" "B" = Some 2%Q /\
  closure_table [unitA; unitB] [edgeAB; edgeAB3] !! key "A" "B" = Some 3%Q.
Proof. vm_compute. repeat split. Qed.

(** C8 (amended). The table is seeded first with every direct edge, in list
    order (the last direct equation of a key gives its multiplier), then with
    multiplier(i,i) = 1 for every unit i (replacing a direct self-edge); in
    the triple loop the step (i, k, j) sets (i, j) to m(i,k) × m(k,j) when
    both factors are known and (i, j) has no multiplier, and leaves the table
    unchanged otherwise; so every entry present after seeding is still
    present, with the same value, at the end. *)
Theorem closure_first_write_wins (us : list Unit) (cs : list ConversionEquation) :
  let seeded := seed_self (seed_direct ∅ cs) us in
  (forall u, In u us -> seeded !! key (uid u) (uid u) = Some 1%Q) /\
  (forall x, (forall u, In u us -> key (uid u) (uid u) <> x) ->
             seeded !! x = last_direct_from None cs x) /\
  (forall m i k j ik kj,
     m !! key (uid i) (uid k) = Some ik -> m !! key (uid k) (uid j) = Some kj ->
     m !! key (uid i) (uid j) = None ->
     relax m i k j = <[key (uid i) (uid j) := (ik * kj)%Q]> m) /\
  (forall m i k j,
     m !! key (uid i) (uid k) = None \/ m !! key (uid k) (uid j) = None \/
     is_Some (m !! key (uid i) (uid j)) ->
     relax m i k j = m) /\
  (forall m i k j x q, m !! x = Some q -> relax m i k j !! x = Some q) /\
  (forall x q, seeded !! x = Some q -> closure_table us cs !! x = Some q).
Proof.
  intros seeded. split; [|split; [|split; [|split; [|split]]]].
  - intros u Hu. unfold seeded. rewrite seed_self_lookup.
    replace (existsb _ us) with true; [reflexivity|].
    symmetry. apply existsb_exists. exists u. split; [exact Hu|]. apply str_eqb_true. reflexivity.
  - intros x Hx. unfold seeded. rewrite seed_self_lookup.
    replace (existsb _ us) with false.
    + rewrite seed_direct_lookup, lookup_empty. reflexivity.
    + symmetry. apply not_true_iff_false. intros (u & Hu & E)%existsb_exists.
      apply str_eqb_true in E. exact (Hx u Hu E).
  - intros m i k j ik kj E1 E2 E3. unfold relax. rewrite E1, E2, E3. reflexivity.
  - intros m i k j H. unfold relax.
    destruct H as [E|[E|[q E]]]; rewrite E; [reflexivity| |].
    + destruct (m !! key (uid i) (uid k)); reflexivity.
    + destruct (m !! key (uid i) (uid k)), (m !! key (uid k) (uid j)); reflexivity.
  - intros m i k j x q H. apply relax_incl. exact H.
  - intros x q H. apply relax_all_incl. exact H.
Qed.

(** C8 witness: the amended statement at units A, B with a direct self-edge. *)
Lemma closure_first_write_wins_witness :
  closure_table [unitA; unitB] [selfA5] !! key "A" "A" = Some 1%Q /\
  closure_table [unitA; unitB] [edgeAB] !! key "A" "B" = Some 2%Q /\
  relax (<[key "A" "B" := 2%Q]> (<[key "B" "C" := 3%Q]> ∅)) unitA unitB unitC
    = <[key "A" "C" := (2 * 3)%Q]> (<[key "A" "B" := 2%Q]> (<[key "B" "C" := 3%Q]> ∅)) /\
  relax (<[key "A" "B" := 2%Q]> ∅) unitA unitB unitC = <[key "A" "B" := 2%Q]> ∅.
Proof.
  split; [|split; [|split]].
  3:{ destruct (closure_first_write_wins [] []) as (_ & _ & H3 & _).
      apply H3; vm_compute; reflexivity. }
  3:{ destruct (closure_first_write_wins [] []) as (_ & _ & _ & H4 & _).
      apply H4. right. left. vm_compute. reflexivity. }
  - destruct (closure_first_write_wins [unitA; unitB] [selfA5]) as (H1 & _ & _ & _ & _ & H5).
    apply H5, (H1 unitA). simpl. auto.
  - destruct (closure_first_write_wins [unitA; unitB] [edgeAB]) as (_ & H2 & _ & _ & _ & H5).
    apply H5. rewrite H2; [reflexivity|].
    intros u [<-|[<-|[]]]; vm_compute; discriminate.
Defined.

(** ** Pre-existing direct edges survive the closure *)

(** C10 (counterexample). Of two direct equations for the same pair A→B,
    only the first is returned: the second is dropped. *)
Lemma closure_drops_duplicate_pair :
  generateCompleteConversions uuid_stub show_stub [unitA; unitB] [edgeAB; edgeAB3] 0 = [edgeAB].
Proof. vm_compute. reflexivity. Qed.

(** C10 (amended). Every input equation between two distinct units of the
    list that is the first input equation of its (fromUnitId, toUnitId) pair
    is returned unchanged; every other returned equation (groups of two or
    more units) is a fresh one for a pair of distinct units that had no
    input equation. *)
Theorem closure_keeps_direct_edges (generateUUID : nat -> string) (num_to_string : Q -> string)
    (us : list Unit) (cs : list ConversionEquation) (n0 : nat) :
  let out := generateCompleteConversions generateUUID num_to_string us cs n0 in
  (forall e, In e cs -> fromUnitId e <> toUnitId e ->
     (exists f, In f us /\ uid f = fromUnitId e) ->
     (exists t, In t us /\ uid t = toUnitId e) ->
     find_conv cs (fromUnitId e) (toUnitId e) = Some e ->
     In e out) /\
  (2 <= length us -> forall e, In e out ->
     (In e cs /\ find_conv cs (fromUnitId e) (toUnitId e) = Some e) \/
     (find_conv cs (fromUnitId e) (toUnitId e) = None /\ fromUnitId e <> toUnitId e /\
      exists f t, In f us /\ In t us /\ uid f = fromUnitId e /\ uid t = toUnitId e)).
Proof.
  intros out. split.
  - intros e He Hne [f [Hf Ef]] [t [Ht Et]] Hfirst.
    assert (Hlen : 2 <= length us) by (apply (two_le_length _ f t); auto; congruence).
    unfold out, generateCompleteConversions, generateCompleteConversions_st.
    replace (Nat.ltb (length us) 2) with false by (symmetry; apply Nat.ltb_ge; lia).
    assert (Hk : has_key (key (uid f) (uid t)) (closure_table us cs)).
    { rewrite Ef, Et. apply has_key_closure_table. exact He. }
    destruct Hk as [q Hq].
    destruct (emit_all_hit generateUUID num_to_string us cs (closure_table us cs) n0 f t q
                Hf Ht ltac:(congruence) Hq) as (e' & He' & _ & _ & [Hs|[Hn _]]).
    + rewrite Ef, Et, Hfirst in Hs. injection Hs as <-. exact He'.
    + rewrite Ef, Et, Hfirst in Hn. discriminate.
  - intros Hlen e He. unfold out, generateCompleteConversions, generateCompleteConversions_st in He.
    replace (Nat.ltb (length us) 2) with false in He by (symmetry; apply Nat.ltb_ge; lia).
    destruct (emit_all_elems _ _ _ _ _ _ _ He) as (f & t & Hf & Ht & Hne & E1 & E2 & [Hs|[Hn _]]).
    + left. rewrite E1, E2. split; [|exact Hs]. apply (find_conv_spec _ _ _ _ Hs).
    + right. rewrite E1, E2. split; [exact Hn|]. split; [exact Hne|].
      exists f, t. auto.
Qed.

Lemma closure_keeps_direct_edges_witness :
  In edgeAB (generateCompleteConversions uuid_stub show_stub [unitA; unitB; unitC]
               [edgeAB; edgeBC] 0).
Proof.
  apply (proj1 (closure_keeps_direct_edges uuid_stub show_stub [unitA; unitB; unitC]
                  [edgeAB; edgeBC] 0)).
  - simpl. auto.
  - discriminate.
  - exists unitA. simpl. auto.
  - exists unitB. simpl. auto.
  - vm_compute. reflexivity.
Defined.

(** ** Size of the closure's output *)

Section EmitLength.

Variable generateUUID : nat -> string.
Variable num_to_string : Q -> string.

Lemma emit_inner_length cs tbl f l st :
  length (fst (fold_left (fun st t => emit_pair generateUUID num_to_string cs tbl f t st) l st))
  <= length (fst st) + length (filter (fun t => negb (str_eqb (uid f) (uid t))) l).
Proof.
  revert st. induction l as [|t l IH]; intros st; [simpl; lia|].
  cbn [fold_left]. rewrite filter_cons.
  etransitivity; [apply IH|].
  assert (H : length (fst (emit_pair generateUUID num_to_string cs tbl f t st))
              <= length (fst st) + (if str_eqb (uid f) (uid t) then 0 else 1)).
  { destruct st as [acc n]. unfold emit_pair.
    destruct (str_eqb (uid f) (uid t)); simpl; [lia|].
    destruct (tbl !! key (uid f) (uid t)); simpl; [|lia].
    destruct (find_conv cs (uid f) (uid t)); simpl; rewrite length_app; simpl; lia. }
  destruct (str_eqb (uid f) (uid t)); simpl in *; lia.
Qed.

Lemma emit_all_length us cs tbl n0 :
  length (fst (emit_all generateUUID num_to_string us cs tbl n0))
  <= length us * (length us - 1).
Proof.
  unfold emit_all.
  assert (H : forall l st, (forall f, In f l -> In f us) ->
    length (fst (fold_left (fun st f => fold_left (fun st t =>
        emit_pair generateUUID num_to_string cs tbl f t st) us st) l st))
    <= length (fst st) + length l * (length us - 1)).
  { induction l as [|f l IH]; intros st Hl; simpl; [lia|].
    etransitivity; [apply IH; intros; apply Hl; simpl; auto|].
    pose proof (emit_inner_length cs tbl f us st) as H1.
    assert (H2 : length (filter (fun t => negb (str_eqb (uid f) (uid t))) us) < length us).
    { apply (length_filter_lt _ us f).
      - apply list_elem_of_In, Hl. simpl. auto.
      - unfold str_eqb. rewrite bool_decide_eq_true_2 by reflexivity. simpl. tauto. }
    lia. }
  etransitivity; [apply H; auto|]. simpl. lia.
Qed.

Lemma generateCompleteConversions_length us cs n0 :
  2 <= length us ->
  length (generateCompleteConversions generateUUID num_to_string us cs n0)
  <= length us * (length us - 1).
Proof.
  intros Hl. unfold generateCompleteConversions, generateCompleteConversions_st.
  replace (Nat.ltb (length us) 2) with false by (symmetry; apply Nat.ltb_ge; lia).
  apply emit_all_length.
Qed.

End EmitLength.

(** ** The idempotence guard of ensureCompleteConversions *)

Lemma ensure_fold_full generateUUID num_to_string allUnits (l : list UnitGroup) done reports n :
  (forall g, In g l -> length (gconversions g) =
     length (group_units allUnits g) * (length (group_units allUnits g) - 1)) ->
  fold_left (ensure_step generateUUID num_to_string allUnits) l (done, reports, n)
  = ((done ++ l)%list, reports, n).
Proof.
  revert done. induction l as [|g l IH]; intros done Hl; cbn [fold_left].
  - rewrite app_nil_r. reflexivity.
  - assert (E : ensure_step generateUUID num_to_string allUnits (done, reports, n) g
               = ((done ++ [g])%list, reports, n)).
    { unfold ensure_step. rewrite (Hl g (or_introl eq_refl)), Nat.ltb_irrefl. reflexivity. }
    rewrite E, IH by (intros; apply Hl; simpl; auto). rewrite <- app_assoc. reflexivity.
Qed.

Lemma ensure_full_unchanged generateUUID num_to_string allUnits groups n0 :
  (forall g, In g groups -> length (gconversions g) =
     length (group_units allUnits g) * (length (group_units allUnits g) - 1)) ->
  ensureCompleteConversions generateUUID num_to_string allUnits groups n0 = (groups, []).
Proof.
  intros H. unfold ensureCompleteConversions.
  rewrite (ensure_fold_full _ _ _ _ [] [] n0 H). reflexivity.
Qed.

Lemma needs_conversions_full allUnits cp g :
  length (gconversions g) =
     length (group_units allUnits g) * (length (group_units allUnits g) - 1) ->
  needs_conversions allUnits cp g = false.
Proof.
  intros H. unfold needs_conversions.
  destruct (existsb _ _); [reflexivity|]. rewrite H, Nat.ltb_irrefl. reflexivity.
Qed.

(** C2 (code bug). The closure of main.ts returns at most N×(N−1) equations
    for N ≥ 2 units, and leaves a group whose count is already N×(N−1)
    unchanged; but the linker's Phase 2 validates the Oracle's [to] against
    all the group's units, the from-unit included, so a self-edge A→A is
    merged: the group A, B (N = 2) ends with 3 > 2 equations. *)
Theorem group_conversions_exceed_bound :
  (forall generateUUID num_to_string us cs n0, 2 <= length us ->
     length (generateCompleteConversions generateUUID num_to_string us cs n0)
     <= length us * (length us - 1)) /\
  (forall generateUUID num_to_string allUnits groups n0,
     (forall g, In g groups -> length (gconversions g) =
        length (group_units allUnits g) * (length (group_units allUnits g) - 1)) ->
     fst (ensureCompleteConversions generateUUID num_to_string allUnits groups n0) = groups) /\
  (forall allUnits cp g, length (gconversions g) =
        length (group_units allUnits g) * (length (group_units allUnits g) - 1) ->
     needs_conversions allUnits cp g = false) /\
  length (group_units [unitA; unitB] groupAB) = 2 /\
  map (fun g => length (gconversions g))
    (fst (fst (fst (phase2 uuid_stub oracle_self [unitA; unitB] None [groupAB] cp_fresh 0))))
  = [3].
Proof.
  split; [exact generateCompleteConversions_length|].
  split; [intros; rewrite ensure_full_unchanged by assumption; reflexivity|].
  split; [exact needs_conversions_full|].
  split; vm_compute; reflexivity.
Qed.

Lemma group_conversions_exceed_bound_witness :
  length (generateCompleteConversions uuid_stub show_stub [unitA; unitB] [edgeAB] 0) <= 2 /\
  fst (ensureCompleteConversions uuid_stub show_stub [unitA; unitB]
         [set_conversions groupAB [edgeAB; edgeBA]] 0)
  = [set_conversions groupAB [edgeAB; edgeBA]] /\
  needs_conversions [unitA; unitB] cp_fresh (set_conversions groupAB [edgeAB; edgeBA]) = false.
Proof.
  destruct group_conversions_exceed_bound as (H1 & H2 & H3 & _).
  split; [apply (H1 uuid_stub show_stub [unitA; unitB] [edgeAB] 0); simpl; lia|].
  split.
  - apply H2. intros g [<-|[]]. vm_compute. reflexivity.
  - apply H3. vm_compute. reflexivity.
Defined.

(** ** What validateConversion and the merge loop accept *)

Lemma validateConversion_some conv fromUnit allUnits v :
  validateConversion conv fromUnit allUnits = Some v ->
  rfrom conv = Some (usymbol fromUnit) /\
  (exists t, rto conv = Some t /\ exists u, In u allUnits /\ usymbol u = t) /\
  (exists q, rmultiplier conv = Some (JFin q) /\ (0 < q)%Q /\ vmultiplier v = q) /\
  (exists e, requation conv = Some e /\ includes_x e = true).
Proof.
  unfold validateConversion.
  destruct conv as [[f|] [t|] [m|] [e|]]; cbn [rfrom rto rmultiplier requation];
    try discriminate.
  destruct (falsy (Some f) || falsy (Some t) || falsy (Some e)); [discriminate|].
  destruct (str_eqb f (usymbol fromUnit)) eqn:Ef; cbn [negb orb]; [|discriminate].
  destruct (find (fun u => str_eqb (usymbol u) t) allUnits) as [u|] eqn:Eu;
    cbn [negb orb]; [|discriminate].
  destruct m as [q| | |]; try discriminate.
  cbn [js_le0 js_isFinite negb orb]. destruct (Qle_bool q 0) eqn:Eq; cbn [orb]; [discriminate|].
  destruct (includes_x e) eqn:Ex; cbn [negb orb]; [|discriminate].
  intros H. injection H as <-.
  apply str_eqb_true in Ef. apply find_some in Eu as [Hu Eu]. apply str_eqb_true in Eu.
  split; [congruence|]. split; [exists t; split; [reflexivity|exists u; auto]|].
  split; [|exists e; auto].
  exists q. split; [reflexivity|]. split; [|reflexivity].
  apply Qnot_le_lt. intros Hle. apply Qle_bool_iff in Hle. congruence.
Qed.

Lemma merge_one_existing generateUUID groupUnits fromUnit convs n convData toUnit :
  find (fun u => str_eqb (usymbol u) (vto convData)) groupUnits = Some toUnit ->
  (exists c, In c convs /\ fromUnitId c = uid fromUnit /\ toUnitId c = uid toUnit) ->
  merge_one generateUUID groupUnits fromUnit (convs, n) convData = (convs, n).
Proof.
  intros Hf (c & Hc & E1 & E2). unfold merge_one. rewrite Hf.
  replace (existsb _ convs) with true; [reflexivity|].
  symmetry. apply existsb_exists. exists c. split; [exact Hc|].
  rewrite E1, E2. unfold str_eqb. rewrite !bool_decide_eq_true_2 by reflexivity. reflexivity.
Qed.

(** C5 (code bug). An edge kept by [validateConversion] has [from] equal to
    the unit's symbol, a [to] that is the symbol of a unit of the list it is
    checked against, a positive finite multiplier and an equation containing
    "x", and the merge skips a pair already present; but the list checked
    against is the whole group, the unit itself included, not its siblings
    S: the Oracle edge A→A for unit A, with S = [B], is validated and
    merged. *)
Theorem oracle_self_edge_merged :
  (forall conv fromUnit groupUnits v,
     validateConversion conv fromUnit groupUnits = Some v ->
     rfrom conv = Some (usymbol fromUnit) /\
     (exists t, rto conv = Some t /\ exists u, In u groupUnits /\ usymbol u = t) /\
     (exists q, rmultiplier conv = Some (JFin q) /\ (0 < q)%Q /\ vmultiplier v = q) /\
     (exists e, requation conv = Some e /\ includes_x e = true)) /\
  (forall generateUUID groupUnits fromUnit convs n convData toUnit,
     find (fun u => str_eqb (usymbol u) (vto convData)) groupUnits = Some toUnit ->
     (exists c, In c convs /\ fromUnitId c = uid fromUnit /\ toUnitId c = uid toUnit) ->
     merge_one generateUUID groupUnits fromUnit (convs, n) convData = (convs, n)) /\
  filter (fun u => negb (str_eqb (uid u) (uid unitA))) [unitA; unitB] = [unitB] /\
  validate_all [rawAA] unitA [unitA; unitB] = [mkValid "A" "A" 1 "x * 1"] /\
  fst (merge_unit uuid_stub [unitA; unitB] unitA (validate_all [rawAA] unitA [unitA; unitB]) ([], 0))
  = [mkConv "generated" "A" "A" 1 "x * 1" "A to A"].
Proof.
  split; [exact validateConversion_some|].
  split; [exact merge_one_existing|].
  split; [|split]; vm_compute; reflexivity.
Qed.

Lemma oracle_self_edge_merged_witness :
  rfrom rawAB = Some (usymbol unitA) /\
  merge_one uuid_stub [unitA; unitB] unitA ([edgeAB], 0) (mkValid "A" "B" 3 "x * 3")
  = ([edgeAB], 0).
Proof.
  destruct oracle_self_edge_merged as (H1 & H2 & _).
  split.
  - apply (proj1 (H1 rawAB unitA [unitA; unitB] (mkValid "A" "B" 2 "x * 2")
                    ltac:(vm_compute; reflexivity))).
  - apply (H2 uuid_stub [unitA; unitB] unitA [edgeAB] 0 (mkValid "A" "B" 3 "x * 3") unitB).
    + vm_compute. reflexivity.
    + exists edgeAB. simpl. auto.
Defined.

(** ** The consistency validator *)

Lemma Qltb_iff x y : Qltb x y = true <-> (x < y)%Q.
Proof.
  unfold Qltb. destruct (Qle_bool y x) eqn:E; simpl.
  - apply Qle_bool_iff in E. split; [discriminate|]. intros H. exfalso.
    apply (Qlt_not_le _ _ H E).
  - split; [|reflexivity]. intros _. apply Qnot_le_lt. intros H.
    apply Qle_bool_iff in H. congruence.
Qed.

Lemma validate_fold cs l v i ws :
  fold_left (validate_step cs) l (v, i, ws)
  = ((v + length (filter (fun c => edge_ok cs c = true) l))%nat,
     (i + length (filter (fun c => edge_ok cs c = false) l))%nat,
     (ws ++ flat_map (edge_warnings cs) l)%list).
Proof.
  revert v i ws. induction l as [|c l IH]; intros v i ws; cbn [fold_left flat_map].
  - simpl. rewrite app_nil_r, !Nat.add_0_r. reflexivity.
  - rewrite !filter_cons.
    assert (E : validate_step cs (v, i, ws) c =
      if edge_ok cs c then (S v, i, (ws ++ edge_warnings cs c)%list)
      else (v, S i, (ws ++ edge_warnings cs c)%list)).
    { unfold validate_step, edge_ok, edge_warnings. destruct (find_reverse cs c) as [r|].
      - destruct (inverse_ok _); [rewrite app_nil_r|]; reflexivity.
      - reflexivity. }
    rewrite E. destruct (edge_ok cs c) eqn:Ok; rewrite IH;
      repeat (case_decide; try discriminate); simpl;
      rewrite <- app_assoc; f_equal; f_equal; lia.
Qed.

Lemma ensure_fold_shape generateUUID num_to_string allUnits (l : list UnitGroup) done reports n :
  exists l' reports' n',
    fold_left (ensure_step generateUUID num_to_string allUnits) l (done, reports, n)
    = ((done ++ l')%list, reports', n') /\
    Forall2 (ensure_written generateUUID num_to_string allUnits) l l'.
Proof.
  revert done reports n. induction l as [|g l IH]; intros done reports n; cbn [fold_left].
  - exists [], reports, n. rewrite app_nil_r. split; [reflexivity|constructor].
  - set (N := length (group_units allUnits g)).
    destruct (Nat.ltb (length (gconversions g)) (N * (N - 1))) eqn:Elt.
    + destruct (generateCompleteConversions_st generateUUID num_to_string
                  (group_units allUnits g) (gconversions g) n) as [complete n1] eqn:Eg.
      assert (E : ensure_step generateUUID num_to_string allUnits (done, reports, n) g
                  = ((done ++ [set_conversions g complete])%list,
                     (reports ++ [validateConversions complete])%list, n1)).
      { unfold ensure_step. fold N. rewrite Elt, Eg. reflexivity. }
      rewrite E.
      destruct (IH (done ++ [set_conversions g complete])%list
                   (reports ++ [validateConversions complete])%list n1)
        as (l' & r' & n' & Ef & HF).
      exists (set_conversions g complete :: l'), r', n'.
      split; [rewrite Ef, <- app_assoc; reflexivity|].
      constructor; [|exact HF].
      split.
      * intros _. exists n. unfold generateCompleteConversions. rewrite Eg. reflexivity.
      * intros Hle. apply Nat.ltb_lt in Elt. fold N in Hle. lia.
    + assert (E : ensure_step generateUUID num_to_string allUnits (done, reports, n) g
                  = ((done ++ [g])%list, reports, n)).
      { unfold ensure_step. fold N. rewrite Elt. reflexivity. }
      rewrite E.
      destruct (IH (done ++ [g])%list reports n) as (l' & r' & n' & Ef & HF).
      exists (g :: l'), r', n'.
      split; [rewrite Ef, <- app_assoc; reflexivity|].
      constructor; [|exact HF].
      split.
      * intros Hlt. apply Nat.ltb_ge in Elt. fold N in Hlt. lia.
      * intros _. reflexivity.
Qed.

(** C4 (counterexample). The test of the validator is evaluated in
    doubles, not on the exact values. The edges A→B 0.1 and B→A 9.9 are
    both counted valid although |0.1 × 9.9 − 1| = 0.01 exactly; the edges
    A→B 3 and B→A 0.33 are both counted as mismatches although the exact
    product of 3 and of the double 0.33 parses to is within 0.01 of 1. *)
Lemma validateConversions_rounded_test :
  fst (validateConversions [edge_tenth; edge_99tenths]) = (2, 0) /\
  ~ (Qabs ((1 # 10) * (99 # 10) - 1) < 1 # 100)%Q /\
  fst (validateConversions [edge_three; edge_033]) = (0, 2) /\
  (Qabs (3 * multiplier edge_033 - 1) < 1 # 100)%Q.
Proof.
  split; [vm_compute; reflexivity|].
  split; [intros H; vm_compute in H; discriminate H|].
  split; vm_compute; reflexivity.
Qed.

(** C4. [validateConversions cs] counts as valid exactly the edges whose
    reverse edge exists with |m(i,j)×m(j,i) − 1| < 0.01, the product, the
    difference and the comparison taken in double precision as
    [Math.abs(product - 1.0) < 0.01] computes them, counts every other
    edge as an issue, prints an inverse-mismatch warning for an edge whose
    reverse fails the test and a missing-reverse warning for an edge without
    reverse; and the groups [ensureCompleteConversions] writes do not depend
    on it: each is the group's closure when it had fewer than N×(N−1)
    equations and the group itself otherwise, whatever the counts. *)
Theorem validateConversions_advisory :
  (forall cs, validateConversions cs =
     ((length (filter (fun c => edge_ok cs c = true) cs),
       length (filter (fun c => edge_ok cs c = false) cs)),
      flat_map (edge_warnings cs) cs)) /\
  (forall cs c, edge_ok cs c = true <->
     exists r, find_reverse cs c = Some r /\
               inverse_ok (double_product (multiplier c) (multiplier r)) = true) /\
  (forall cs c, edge_warnings cs c =
     match find_reverse cs c with
     | Some r => if edge_ok cs c then []
                 else [InverseMismatch (fromUnitId c) (toUnitId c)
                         (double_product (multiplier c) (multiplier r))]
     | None => [MissingReverse (fromUnitId c) (toUnitId c)]
     end) /\
  (forall generateUUID num_to_string allUnits groups n0,
     Forall2 (ensure_written generateUUID num_to_string allUnits) groups
       (fst (ensureCompleteConversions generateUUID num_to_string allUnits groups n0))).
Proof.
  split.
  { intros cs. unfold validateConversions. rewrite (validate_fold cs cs 0 0 []). reflexivity. }
  split.
  { intros cs c. unfold edge_ok. destruct (find_reverse cs c) as [r|].
    - split; [intros H; exists r; auto|].
      intros (r' & E & H). injection E as <-. exact H.
    - split; [discriminate|]. intros (r' & E & _). discriminate. }
  split.
  { intros cs c. unfold edge_warnings, edge_ok. destruct (find_reverse cs c); reflexivity. }
  intros generateUUID num_to_string allUnits groups n0. unfold ensureCompleteConversions.
  destruct (ensure_fold_shape generateUUID num_to_string allUnits groups [] [] n0)
    as (l' & r' & n' & E & HF).
  rewrite E. exact HF.
Qed.

Lemma validateConversions_advisory_witness :
  validateConversions [edgeAB; edgeBA; edgeBC] =
    ((2, 1), [MissingReverse "B" "C"]) /\
  edge_ok [edgeAB; edgeBA] edgeAB = true /\
  Forall2 (ensure_written uuid_stub show_stub [unitA; unitB]) [groupAB]
    (fst (ensureCompleteConversions uuid_stub show_stub [unitA; unitB] [groupAB] 0)).
Proof.
  destruct validateConversions_advisory as (H1 & H2 & _ & H4).
  split; [rewrite H1; vm_compute; reflexivity|].
  split; [apply H2; exists edgeBA; split; [reflexivity|vm_compute; reflexivity]|].
  apply H4.
Defined.

(** ** The unit linker *)

(** C7 (counterexample). With a unit of symbol "gpm" listed before one of
    symbol "GPM", the reference "GPM" resolves to the first (a
    case-insensitive match), not to the exact match a priority search
    returns. *)
Lemma findUnitBySymbol_not_prioritized :
  findUnitBySymbol "GPM" [unit_gpm_lower; unit_GPM] = Some unit_gpm_lower /\
  findUnitBySymbol_prioritized "GPM" [unit_gpm_lower; unit_GPM] = Some unit_GPM.
Proof. vm_compute. split; reflexivity. Qed.

Lemma orb_eq_ci (lower : string -> string) a s :
  (str_eqb a s || str_eqb (lower a) (lower s))%bool
  = str_eqb (lower a) (lower s).
Proof.
  destruct (str_eqb a s) eqn:E; [|reflexivity].
  apply str_eqb_true in E. subst. simpl. unfold str_eqb.
  rewrite bool_decide_eq_true_2 by reflexivity. reflexivity.
Qed.

Lemma unit_matches_ci lower s u : unit_matches_by lower s u = matches_ci_by lower s u.
Proof.
  unfold unit_matches_by, matches_ci_by. rewrite orb_eq_ci. f_equal.
  induction (uabbreviations u) as [|a l IH]; simpl; [reflexivity|].
  rewrite orb_eq_ci, IH. reflexivity.
Qed.

(** C7 (amended). For any lowering [lower] (JavaScript's [toLowerCase]
    among them), a non-empty reference resolves to the first unit, in list
    order, whose symbol or one of whose abbreviations equals it up to case,
    i.e. after lowering both sides (the four criteria are tried together on
    each unit, not one after the other over the whole list); the empty
    reference resolves to none. For the unit {symbol "GPM", abbreviations
    ["gal/min"]}, "GPM" and "gal/min" resolve to it, "gpm" does when it
    lowers as "GPM" does, and "L/min" resolves to none when it lowers
    neither as "GPM" nor as "gal/min" — as JavaScript's lowering does
    ("gpm", "gpm", "gal/min", "l/min"). *)
Theorem findUnitBySymbol_first_match (lower : string -> string) :
  (forall s us, s <> "" -> findUnitBySymbol_by lower s us = find (matches_ci_by lower s) us) /\
  (forall us, findUnitBySymbol_by lower "" us = None) /\
  (forall s us u, findUnitBySymbol_by lower s us = Some u ->
     In u us /\ matches_ci_by lower s u = true /\
     exists pre post, us = (pre ++ u :: post)%list /\
       Forall (fun v => matches_ci_by lower s v = false) pre) /\
  (lower "gpm" = lower "GPM" -> findUnitBySymbol_by lower "gpm" [gpmUnit] = Some gpmUnit) /\
  findUnitBySymbol_by lower "GPM" [gpmUnit] = Some gpmUnit /\
  findUnitBySymbol_by lower "gal/min" [gpmUnit] = Some gpmUnit /\
  (lower "L/min" <> lower "GPM" -> lower "L/min" <> lower "gal/min" ->
     findUnitBySymbol_by lower "L/min" [gpmUnit] = None).
Proof.
  assert (Hf : forall s us, s <> "" ->
            findUnitBySymbol_by lower s us = find (matches_ci_by lower s) us).
  { intros s us Hs. unfold findUnitBySymbol_by.
    destruct (str_eqb s "") eqn:E; [apply str_eqb_true in E; contradiction|].
    induction us as [|u us IH]; simpl; [reflexivity|].
    rewrite unit_matches_ci, IH. reflexivity. }
  split; [exact Hf|].
  split; [intros; reflexivity|].
  split.
  { intros s us u H.
    destruct (str_eqb s "") eqn:E.
    { unfold findUnitBySymbol_by in H. rewrite E in H. discriminate. }
    apply str_eqb_false in E. rewrite (Hf s us E) in H.
    clear Hf E. induction us as [|v us IH]; simpl in H; [discriminate|].
    destruct (matches_ci_by lower s v) eqn:Ev.
    - injection H as <-. split; [left; reflexivity|]. split; [exact Ev|].
      exists [], us. split; [reflexivity|constructor].
    - destruct (IH H) as (Hin & Hm & pre & post & -> & HF).
      split; [right; exact Hin|]. split; [exact Hm|].
      exists (v :: pre), post. split; [reflexivity|constructor; assumption]. }
  assert (Heq : forall a b, a = b -> str_eqb a b = true).
  { intros a b ->. unfold str_eqb. apply bool_decide_eq_true_2. reflexivity. }
  assert (Hne : forall a b, a <> b -> str_eqb a b = false).
  { intros a b H. unfold str_eqb. apply bool_decide_eq_false_2. exact H. }
  split.
  { intros H. unfold findUnitBySymbol_by, unit_matches_by. simpl.
    rewrite (Heq (lower "GPM") (lower "gpm")) by congruence.
    reflexivity. }
  split; [reflexivity|].
  split.
  { unfold findUnitBySymbol_by, unit_matches_by. simpl.
    destruct (str_eqb (lower "GPM") (lower "gal/min")); reflexivity. }
  intros H1 H2. unfold findUnitBySymbol_by, unit_matches_by. simpl.
  rewrite (Hne (lower "GPM") (lower "L/min")) by congruence.
  rewrite (Hne (lower "gal/min") (lower "L/min")) by congruence.
  reflexivity.
Qed.

Lemma findUnitBySymbol_first_match_witness :
  findUnitBySymbol "gal/min" [unit_GPM; gpmUnit] = Some gpmUnit /\
  In gpmUnit [unit_GPM; gpmUnit] /\
  findUnitBySymbol "gpm" [gpmUnit] = Some gpmUnit /\
  findUnitBySymbol "L/min" [gpmUnit] = None.
Proof.
  destruct (findUnitBySymbol_first_match toLowerCase) as (H1 & _ & H3 & H4 & _ & _ & H7).
  assert (E : findUnitBySymbol "gal/min" [unit_GPM; gpmUnit] = Some gpmUnit).
  { unfold findUnitBySymbol. rewrite H1 by discriminate. vm_compute. reflexivity. }
  split; [exact E|]. split; [exact (proj1 (H3 _ _ _ E))|].
  split; [apply H4; vm_compute; reflexivity|].
  apply H7; vm_compute; discriminate.
Defined.

(** ** loadCheckpoint *)

(** C9. [loadCheckpoint] never throws; it returns the fresh checkpoint
    (classificationComplete false, no group classified or completed, no
    current group, no unit completed) when the file is missing, unreadable,
    not valid JSON, or parses to a value without a [classificationComplete]
    member ([null] included, whose TypeError is caught); otherwise it
    returns the parsed value. *)
Theorem loadCheckpoint_fallback (json_parse : string -> option json) (now : string) :
  (forall fs, exists v, loadCheckpoint json_parse now fs = Ok v) /\
  loadCheckpoint json_parse now Missing = Ok (fresh_checkpoint now) /\
  loadCheckpoint json_parse now Unreadable = Ok (fresh_checkpoint now) /\
  (forall s, json_parse s = None ->
     loadCheckpoint json_parse now (Present s) = Ok (fresh_checkpoint now)) /\
  (forall s v, json_parse s = Some v ->
     match v with JObject ms => member "classificationComplete" ms = None | _ => True end ->
     loadCheckpoint json_parse now (Present s) = Ok (fresh_checkpoint now)) /\
  (forall s ms f, json_parse s = Some (JObject ms) ->
     member "classificationComplete" ms = Some f ->
     loadCheckpoint json_parse now (Present s) = Ok (JObject ms)) /\
  fresh_checkpoint now =
    JObject [("classificationComplete", JBool false); ("groupsClassified", JObject []);
             ("conversionsGroupsCompleted", JArray []); ("currentConversionGroupId", JNull);
             ("unitsCompleted", JArray []); ("lastUpdated", JString now)].
Proof.
  split.
  { intros [| |s]; unfold loadCheckpoint; simpl; [eexists; reflexivity|eexists; reflexivity|].
    unfold load_body, JSON_parse. simpl.
    destruct (json_parse s) as [v|]; simpl; [|eexists; reflexivity].
    destruct v; simpl; try (eexists; reflexivity).
    destruct (member "classificationComplete" members); simpl; eexists; reflexivity. }
  split; [reflexivity|].
  split; [reflexivity|].
  split.
  { intros s H. unfold loadCheckpoint, load_body, JSON_parse. simpl. rewrite H. reflexivity. }
  split.
  { intros s v H Hm. unfold loadCheckpoint, load_body, JSON_parse. simpl. rewrite H.
    destruct v; simpl; try reflexivity. rewrite Hm. reflexivity. }
  split.
  { intros s ms f H Hm. unfold loadCheckpoint, load_body, JSON_parse. simpl. rewrite H.
    simpl. rewrite Hm. reflexivity. }
  reflexivity.
Qed.

Lemma loadCheckpoint_fallback_witness :
  loadCheckpoint parse_stub "t" (Present "{broken") = Ok (fresh_checkpoint "t") /\
  loadCheckpoint parse_stub "t" (Present "{}") = Ok (fresh_checkpoint "t") /\
  loadCheckpoint parse_stub "t" (Present "null") = Ok (fresh_checkpoint "t").
Proof.
  destruct (loadCheckpoint_fallback parse_stub "t") as (_ & _ & _ & H4 & H5 & _).
  split; [apply H4; vm_compute; reflexivity|].
  split; [apply (H5 "{}" (JObject [])); vm_compute; reflexivity|].
  apply (H5 "null" JNull); [vm_compute; reflexivity|exact I].
Defined.

(** ** Duplicate detection: candidates *)

Lemma cands_from_in lower split x rest c :
  In c (cands_from_by lower split x rest) <->
  exists mid y post, rest = (mid ++ y :: post)%list /\
    c = mkCand x y (calculateStringSimilarity_by lower split (primaryName x) (primaryName y)) /\
    Qle_bool 30 (calculateStringSimilarity_by lower split (primaryName x) (primaryName y)) = true.
Proof.
  unfold cands_from_by. induction rest as [|y rest IH]; simpl.
  - split; [tauto|]. intros (mid & y & post & E & _). destruct mid; discriminate.
  - destruct (Qle_bool 30 (calculateStringSimilarity_by lower split (primaryName x) (primaryName y))) eqn:Ey;
      simpl; rewrite IH.
    + split.
      * intros [<-|(mid & y' & post & -> & Ec & Hq)].
        -- exists [], y, rest. auto.
        -- exists (y :: mid), y', post. auto.
      * intros (mid & y' & post & E & Ec & Hq). destruct mid as [|z mid]; simpl in E.
        -- injection E as <- <-. left. symmetry. exact Ec.
        -- injection E as <- ->. right. exists mid, y', post. auto.
    + split.
      * intros (mid & y' & post & -> & Ec & Hq). exists (y :: mid), y', post. auto.
      * intros (mid & y' & post & E & Ec & Hq). destruct mid as [|z mid]; simpl in E.
        -- injection E as <- <-. congruence.
        -- injection E as <- ->. exists mid, y', post. auto.
Qed.

Lemma cands_in_in lower split ss c :
  In c (cands_in_by lower split ss) <->
  exists pre x mid y post, ss = (pre ++ x :: mid ++ y :: post)%list /\
    c = mkCand x y (calculateStringSimilarity_by lower split (primaryName x) (primaryName y)) /\
    Qle_bool 30 (calculateStringSimilarity_by lower split (primaryName x) (primaryName y)) = true.
Proof.
  induction ss as [|x rest IH]; simpl.
  - split; [tauto|]. intros (pre & x & mid & y & post & E & _). destruct pre; discriminate.
  - rewrite in_app_iff, cands_from_in, IH. split.
    + intros [(mid & y & post & -> & Ec & Hq)|(pre & x' & mid & y & post & -> & Ec & Hq)].
      * exists [], x, mid, y, post. auto.
      * exists (x :: pre), x', mid, y, post. auto.
    + intros (pre & x' & mid & y & post & E & Ec & Hq). destruct pre as [|z pre]; simpl in E.
      * injection E as <- ->. left. exists mid, y, post. auto.
      * injection E as <- ->. right. exists pre, x', mid, y, post. auto.
Qed.

Lemma domain_push_in acc s d ss :
  In (d, ss) (domain_push acc s) ->
  In (d, ss) acc \/
  (d = domain s /\ exists ss0, ss = (ss0 ++ [s])%list /\ (ss0 = [] \/ In (d, ss0) acc)).
Proof.
  induction acc as [|[k ks] acc IH]; simpl.
  - intros [E|[]]. injection E as <- <-. right. split; [reflexivity|]. exists []. auto.
  - destruct (str_eqb k (domain s)) eqn:Ek; simpl.
    + apply str_eqb_true in Ek. intros [E|H].
      * injection E as <- <-. right. split; [exact Ek|]. exists ks. auto.
      * left. right. exact H.
    + intros [E|H]; [left; left; exact E|].
      destruct (IH H) as [H'|(Ed & ss0 & Es & H')]; [left; right; exact H'|].
      right. split; [exact Ed|]. exists ss0. split; [exact Es|].
      destruct H' as [->|H']; [left; reflexivity|right; right; exact H'].
Qed.

Lemma domain_push_keeps acc s d ss x :
  In (d, ss) acc -> In x ss -> exists ss', In (d, ss') (domain_push acc s) /\ In x ss'.
Proof.
  induction acc as [|[k ks] acc IH]; simpl; [tauto|].
  intros [E|H] Hx.
  - injection E as -> ->. destruct (str_eqb d (domain s)).
    + exists (ss ++ [s])%list. simpl. split; [left; reflexivity|]. apply in_or_app. auto.
    + exists ss. simpl. auto.
  - destruct (str_eqb k (domain s)).
    + exists ss. simpl. auto.
    + destruct (IH H Hx) as (ss' & H1 & H2). exists ss'. simpl. auto.
Qed.

Lemma domain_push_self acc s : exists ss, In (domain s, ss) (domain_push acc s) /\ In s ss.
Proof.
  induction acc as [|[k ks] acc IH]; simpl.
  - exists [s]. simpl. auto.
  - destruct (str_eqb k (domain s)) eqn:Ek.
    + apply str_eqb_true in Ek. subst k. exists (ks ++ [s])%list. simpl.
      split; [left; reflexivity|]. apply in_or_app. simpl. auto.
    + destruct IH as (ss & H1 & H2). exists ss. simpl. auto.
Qed.

Lemma domain_push_keys acc s :
  map fst (domain_push acc s) = map fst acc \/
  (map fst (domain_push acc s) = (map fst acc ++ [domain s])%list /\ ~ In (domain s) (map fst acc)).
Proof.
  induction acc as [|[k ks] acc IH]; simpl.
  - right. auto.
  - destruct (str_eqb k (domain s)) eqn:Ek; simpl; [left; reflexivity|].
    apply str_eqb_false in Ek.
    destruct IH as [->|[-> H]]; [left; reflexivity|].
    right. split; [reflexivity|]. intros [E|E]; [congruence|tauto].
Qed.

Lemma byDomain_buckets specTypes :
  (forall d ss, In (d, ss) (byDomain specTypes) -> forall x, In x ss -> domain x = d /\ In x specTypes) /\
  (forall x, In x specTypes -> exists ss, In (domain x, ss) (byDomain specTypes) /\ In x ss) /\
  NoDup (map fst (byDomain specTypes)).
Proof.
  unfold byDomain. split; [|split].
  - apply (fold_pres_in _ (fun acc => forall d ss, In (d, ss) acc -> forall x, In x ss ->
                                   domain x = d /\ In x specTypes)); [|simpl; tauto].
    intros acc s Hs Hacc d ss Hin x Hx.
    destruct (domain_push_in acc s d ss Hin) as [H|(-> & ss0 & -> & H)]; [eauto|].
    apply in_app_or in Hx as [Hx|[<-|[]]]; [|auto].
    destruct H as [->|H]; [destruct Hx|eauto].
  - assert (K : forall l acc x, (In x l \/ exists ss, In (domain x, ss) acc /\ In x ss) ->
              exists ss, In (domain x, ss) (fold_left domain_push l acc) /\ In x ss).
    { induction l as [|s l IH]; intros acc x H; simpl.
      - destruct H as [[]|H]; exact H.
      - apply IH. destruct H as [[<-|H]|(ss & H1 & H2)].
        + right. apply domain_push_self.
        + left. exact H.
        + right. eapply domain_push_keeps; eauto. }
    intros x Hx. apply K. left. exact Hx.
  - assert (K : forall l acc, NoDup (map fst acc) -> NoDup (map fst (fold_left domain_push l acc))).
    { induction l as [|s l IH]; intros acc H; simpl; [exact H|]. apply IH.
      destruct (domain_push_keys acc s) as [->|[-> Hn]]; [exact H|].
      apply NoDup_app. split; [exact H|]. split; [|apply NoDup_singleton].
      intros z Hz1 Hz2. apply list_elem_of_In in Hz1, Hz2. destruct Hz2 as [<-|[]]. tauto. }
    apply K. constructor.
Qed.

Lemma find_candidates_in lower split specTypes c :
  In c (find_candidates_by lower split specTypes) <->
  exists d ss pre x mid y post, In (d, ss) (byDomain specTypes) /\
    ss = (pre ++ x :: mid ++ y :: post)%list /\
    c = mkCand x y (calculateStringSimilarity_by lower split (primaryName x) (primaryName y)) /\
    Qle_bool 30 (calculateStringSimilarity_by lower split (primaryName x) (primaryName y)) = true.
Proof.
  unfold find_candidates_by. rewrite in_concat. split.
  - intros (l & Hl & Hc). apply in_map_iff in Hl as ([d ss] & <- & Hin).
    apply cands_in_in in Hc as (pre & x & mid & y & post & E & Ec & Hq).
    exists d, ss, pre, x, mid, y, post. auto.
  - intros (d & ss & pre & x & mid & y & post & Hin & E & Ec & Hq).
    exists (cands_in_by lower split ss). split.
    + apply in_map_iff. exists (d, ss). auto.
    + apply cands_in_in. exists pre, x, mid, y, post. auto.
Qed.

(** ** Duplicate detection: recording the verdicts *)







(** ** Resuming from a checkpoint *)


Lemma chunks_fuel_concat {A} fuel n (l : list A) :
  0 < n -> length l <= fuel -> concat (chunks_fuel fuel n l) = l.
Proof.
  revert l. induction fuel as [|fuel IH]; intros l Hn Hl; simpl.
  - destruct l; [reflexivity|simpl in Hl; lia].
  - destruct l as [|x l']; [reflexivity|]. set (l := x :: l').
    simpl. rewrite IH; [apply take_drop|exact Hn|].
    rewrite length_drop. unfold l in *. simpl in *. lia.
Qed.

Lemma batches_concat {A} n (l : list A) : 0 < n -> concat (batches n l) = l.
Proof. intros Hn. apply chunks_fuel_concat; [exact Hn|lia]. Qed.

Section Resume.

Variable generateUUID : nat -> string.
Variable generateConversionsFromUnit : Unit -> list Unit -> string -> list RawConv.



End Resume.

















(* ------------------------------------------------------------------ *)
(** ** Reachability: the triple loop is Warshall's algorithm *)

Lemma chain_app cs x l1 y l2 z :
  chain cs x (l1 ++ y :: l2)%list z <-> chain cs x l1 y /\ chain cs y l2 z.
Proof.
  revert x. induction l1 as [|a l1 IH]; intros x; simpl; [tauto|].
  rewrite IH. tauto.
Qed.

Lemma reach_chain S cs x z :
  reach S cs x z -> exists l, (forall y, In y l -> In y S) /\ chain cs x l z.
Proof.
  induction 1 as [c Hc|x y z Hy _ [l1 [H1 C1]] _ [l2 [H2 C2]]].
  - exists []. simpl. split; [tauto|]. exists c. auto.
  - exists (l1 ++ y :: l2)%list. split.
    + intros w Hw. apply in_app_or in Hw as [Hw|[<-|Hw]]; auto.
    + apply chain_app. auto.
Qed.

Lemma split_first (y : string) l :
  In y l -> exists l1 l2, l = (l1 ++ y :: l2)%list /\ ~ In y l1.
Proof.
  induction l as [|a l IH]; simpl; [tauto|]. intros Hin.
  destruct (string_dec a y) as [<-|Ne].
  - exists [], l. simpl. auto.
  - destruct Hin as [E|Hin]; [congruence|].
    destruct (IH Hin) as (l1 & l2 & -> & Hn). exists (a :: l1), l2. simpl. split; [reflexivity|].
    intros [E|E]; [congruence|tauto].
Qed.

Lemma split_last (y : string) l :
  In y l -> exists l1 l2, l = (l1 ++ y :: l2)%list /\ ~ In y l2.
Proof.
  induction l as [|a l IH]; simpl; [tauto|]. intros Hin.
  destruct (in_dec string_dec y l) as [Hl|Hl].
  - destruct (IH Hl) as (l1 & l2 & -> & Hn). exists (a :: l1), l2. auto.
  - destruct Hin as [<-|Hin]; [|tauto]. exists [], l. auto.
Qed.

Lemma relax_k_incl us k m : incl_tbl m (relax_k us k m).
Proof.
  unfold relax_k.
  apply (fold_pres _ (fun z => incl_tbl m z)); [|apply incl_tbl_refl].
  intros z i Hz. eapply incl_tbl_trans; [exact Hz|].
  apply (fold_pres _ (fun w => incl_tbl z w)); [|apply incl_tbl_refl].
  intros w j Hw. eapply incl_tbl_trans; [exact Hw|]. apply relax_incl.
Qed.

Lemma relax_k_defined us m i k j :
  In i us -> In j us ->
  has_key (key (uid i) (uid k)) m -> has_key (key (uid k) (uid j)) m ->
  has_key (key (uid i) (uid j)) (relax_k us k m).
Proof.
  intros Hi Hj H1 H2. unfold relax_k.
  set (Q0 := fun y => has_key (key (uid i) (uid k)) y /\ has_key (key (uid k) (uid j)) y).
  assert (HQ : forall y, Q0 y -> forall y', incl_tbl y y' -> Q0 y').
  { intros y [A B] y' Hy. split; eapply has_key_incl; eauto. }
  assert (HP : forall y y', has_key (key (uid i) (uid j)) y -> incl_tbl y y' ->
                           has_key (key (uid i) (uid j)) y').
  { intros. eapply has_key_incl; eauto. }
  apply (fold_hit _ (has_key (key (uid i) (uid j))) Q0 us i); [| | |exact Hi|split; assumption].
  - intros z b Hz. eapply HP; [exact Hz|].
    apply (fold_pres _ (fun w => incl_tbl z w)); [|apply incl_tbl_refl].
    intros w j' Hw. eapply incl_tbl_trans; [exact Hw|]. apply relax_incl.
  - intros z b Hz. eapply HQ; [exact Hz|].
    apply (fold_pres _ (fun w => incl_tbl z w)); [|apply incl_tbl_refl].
    intros w j' Hw. eapply incl_tbl_trans; [exact Hw|]. apply relax_incl.
  - intros z Hz.
    apply (fold_hit _ (has_key (key (uid i) (uid j))) Q0 us j); [| | |exact Hj|exact Hz].
    + intros w b Hw. eapply HP; [exact Hw|]. apply relax_incl.
    + intros w b Hw. eapply HQ; [exact Hw|]. apply relax_incl.
    + intros w [[ik Hik] [kj Hkj]]. unfold relax, has_key.
      rewrite Hik, Hkj. destruct (w !! key (uid i) (uid j)) eqn:E.
      * rewrite E. eauto.
      * rewrite lookup_insert_eq. eauto.
Qed.

Lemma relax_all_fold us m : relax_all us m = fold_left (fun m k => relax_k us k m) us m.
Proof. reflexivity. Qed.

Lemma avoid_last (P : list Unit) (k : Unit) l :
  (forall y, In y l -> In y (map uid (P ++ [k])%list)) -> ~ In (uid k) l ->
  forall y, In y l -> In y (map uid P).
Proof.
  intros Hl Hn y Hy. specialize (Hl y Hy). rewrite map_app in Hl.
  apply in_app_or in Hl as [Hl|[E|[]]]; [exact Hl|]. subst. tauto.
Qed.

Lemma warshall_step us cs P k m :
  In k us -> warshall_inv us cs P m -> warshall_inv us cs (P ++ [k])%list (relax_k us k m).
Proof.
  intros Hk Inv i j l Hi Hj Hl Hc.
  destruct (in_dec string_dec (uid k) l) as [Hkl|Hkl].
  - destruct (split_first _ _ Hkl) as (l1 & l2 & -> & Hn1).
    apply chain_app in Hc as [C1 C2].
    assert (Hl2 : forall y, In y l2 -> In y (map uid (P ++ [k])%list))
      by (intros y Hy; apply Hl, in_or_app; simpl; auto).
    apply relax_k_defined; [exact Hi|exact Hj| |].
    + apply (Inv i k l1 Hi Hk); [|exact C1].
      apply avoid_last with k; [|exact Hn1].
      intros y Hy. apply Hl, in_or_app. auto.
    + destruct (in_dec string_dec (uid k) l2) as [Hk2|Hk2].
      * destruct (split_last _ _ Hk2) as (l3 & l4 & E & Hn4). subst l2.
        apply chain_app in C2 as [_ C4].
        apply (Inv k j l4 Hk Hj); [|exact C4].
        apply avoid_last with k; [|exact Hn4].
        intros y Hy. apply Hl2, in_or_app. simpl. auto.
      * apply (Inv k j l2 Hk Hj); [|exact C2].
        apply avoid_last with k; [exact Hl2|exact Hk2].
  - eapply has_key_incl; [apply relax_k_incl|].
    apply (Inv i j l Hi Hj); [|exact Hc].
    apply avoid_last with k; [exact Hl|exact Hkl].
Qed.

Lemma warshall_fold us cs K P m :
  (forall k, In k K -> In k us) -> warshall_inv us cs P m ->
  warshall_inv us cs (P ++ K)%list (fold_left (fun m k => relax_k us k m) K m).
Proof.
  revert P m. induction K as [|k K IH]; intros P m HK Inv; simpl.
  - rewrite app_nil_r. exact Inv.
  - replace (P ++ k :: K)%list with ((P ++ [k]) ++ K)%list by (rewrite <- app_assoc; reflexivity).
    apply IH; [intros; apply HK; simpl; auto|]. apply warshall_step; [apply HK; simpl; auto|exact Inv].
Qed.

Lemma warshall_seed us cs : warshall_inv us cs [] (seed_self (seed_direct ∅ cs) us).
Proof.
  intros i j l Hi Hj Hl Hc. destruct l as [|y l].
  - destruct Hc as (c & Hc & E1 & E2). rewrite <- E1, <- E2. apply seed_key_of_edge. exact Hc.
  - exfalso. apply (Hl y). left. reflexivity.
Qed.

Lemma closure_table_reach us cs a b :
  In a us -> In b us -> reach (map uid us) cs (uid a) (uid b) ->
  has_key (key (uid a) (uid b)) (closure_table us cs).
Proof.
  intros Ha Hb Hr. destruct (reach_chain _ _ _ _ Hr) as (l & Hl & Hc).
  unfold closure_table. rewrite relax_all_fold.
  apply (warshall_fold us cs us [] _ (fun k Hk => Hk) (warshall_seed us cs) a b l Ha Hb);
    [exact Hl|exact Hc].
Qed.

(** Completeness of the closure: whenever two units of the group with
    different ids are joined by a chain of existing conversions whose
    intermediate units belong to the group, the output of
    generateCompleteConversions has an equation from the first to the
    second. *)
Theorem closure_complete (generateUUID : nat -> string) (num_to_string : Q -> string)
    (us : list Unit) (cs : list ConversionEquation) (n0 : nat) (a b : Unit) :
  In a us -> In b us -> uid a <> uid b -> reach (map uid us) cs (uid a) (uid b) ->
  exists e, In e (generateCompleteConversions generateUUID num_to_string us cs n0) /\
    fromUnitId e = uid a /\ toUnitId e = uid b.
Proof.
  intros Ha Hb Hne Hr.
  assert (Hlen : 2 <= length us) by (apply (two_le_length _ a b); auto; congruence).
  unfold generateCompleteConversions, generateCompleteConversions_st.
  replace (Nat.ltb (length us) 2) with false by (symmetry; apply Nat.ltb_ge; lia).
  destruct (closure_table_reach us cs a b Ha Hb Hr) as [q Hq].
  destruct (emit_all_hit generateUUID num_to_string us cs _ n0 a b q Ha Hb Hne Hq)
    as (e & He & E1 & E2 & _).
  eauto.
Qed.

Lemma closure_complete_witness :
  exists e, In e (generateCompleteConversions uuid_stub show_stub [unitA; unitB; unitC]
                   [edgeAB; edgeBC] 0) /\ fromUnitId e = "A" /\ toUnitId e = "C".
Proof.
  apply (closure_complete uuid_stub show_stub [unitA; unitB; unitC] [edgeAB; edgeBC] 0 unitA unitC).
  - simpl. auto.
  - simpl. auto.
  - discriminate.
  - apply (reach_trans _ _ _ "B").
    + simpl. auto.
    + exact (reach_edge _ [edgeAB; edgeBC] edgeAB (or_introl eq_refl)).
    + exact (reach_edge _ [edgeAB; edgeBC] edgeBC (or_intror (or_introl eq_refl))).
Defined.

Lemma has_key_insert_inv x k q (m : gmap string Q) :
  has_key x (<[k := q]> m) -> x = k \/ has_key x m.
Proof.
  intros [q' Hq']. destruct (string_dec k x) as [<-|Ne]; [left; reflexivity|].
  right. rewrite lookup_insert_ne in Hq' by exact Ne. exists q'. exact Hq'.
Qed.

Lemma sound_relax us cs m i k j :
  is_ascii (uid i) = true -> is_ascii (uid k) = true -> In (uid k) (map uid us) ->
  sound_inv us cs m -> sound_inv us cs (relax m i k j).
Proof.
  intros Ai Ak Hk Inv x Hx. unfold relax in Hx.
  destruct (m !! key (uid i) (uid k)) as [ik|] eqn:E1; [|exact (Inv x Hx)].
  destruct (m !! key (uid k) (uid j)) as [kj|] eqn:E2; [|exact (Inv x Hx)].
  destruct (m !! key (uid i) (uid j)) as [ij|] eqn:E3; [exact (Inv x Hx)|].
  apply has_key_insert_inv in Hx as [->|Hx]; [|exact (Inv x Hx)].
  destruct (Inv _ (ex_intro _ ik E1)) as (s & t & K1 & As & R1).
  destruct (key_inj _ _ _ _ Ai As K1) as [<- <-].
  destruct (Inv _ (ex_intro _ kj E2)) as (s' & t' & K2 & As' & R2).
  destruct (key_inj _ _ _ _ Ak As' K2) as [<- <-].
  exists (uid i), (uid j). split; [reflexivity|]. split; [exact Ai|]. right.
  destruct R1 as [E|R1]; [rewrite E in E3; congruence|].
  destruct R2 as [E|R2]; [rewrite <- E in E3; congruence|].
  exact (reach_trans _ _ _ _ _ Hk R1 R2).
Qed.

Lemma sound_relax_all us cs m :
  (forall u, In u us -> is_ascii (uid u) = true) ->
  sound_inv us cs m -> sound_inv us cs (relax_all us m).
Proof.
  intros HA Inv. unfold relax_all.
  apply (fold_pres_in _ (sound_inv us cs)); [|exact Inv].
  intros y k Hk Hy. apply (fold_pres_in _ (sound_inv us cs)); [|exact Hy].
  intros z i Hi Hz. apply (fold_pres_in _ (sound_inv us cs)); [|exact Hz].
  intros w j Hj Hw. apply sound_relax; auto. apply in_map. exact Hk.
Qed.

Lemma sound_seed us cs :
  (forall u, In u us -> is_ascii (uid u) = true) ->
  (forall c, In c cs -> is_ascii (fromUnitId c) = true) ->
  sound_inv us cs (seed_self (seed_direct ∅ cs) us).
Proof.
  intros HA HC. unfold seed_self.
  apply (fold_pres_in _ (sound_inv us cs)).
  - intros y u Hu Hy x Hx. apply has_key_insert_inv in Hx as [->|Hx]; [|exact (Hy x Hx)].
    exists (uid u), (uid u). repeat split; auto.
  - unfold seed_direct. apply (fold_pres_in _ (sound_inv us cs)).
    + intros y c Hc Hy x Hx. apply has_key_insert_inv in Hx as [->|Hx]; [|exact (Hy x Hx)].
      exists (fromUnitId c), (toUnitId c). split; [reflexivity|]. split; [auto|].
      right. apply reach_edge. exact Hc.
    + intros x [q Hq]. rewrite lookup_empty in Hq. discriminate.
Qed.

(** Soundness of the closure: when the unit ids and the source ids of the
    existing conversions are ASCII, every equation in the output of
    generateCompleteConversions joins two units that are connected by a
    chain of existing conversions through units of the group. *)
Theorem closure_sound (generateUUID : nat -> string) (num_to_string : Q -> string)
    (us : list Unit) (cs : list ConversionEquation) (n0 : nat) :
  (forall u, In u us -> is_ascii (uid u) = true) ->
  (forall c, In c cs -> is_ascii (fromUnitId c) = true) ->
  forall e, In e (generateCompleteConversions generateUUID num_to_string us cs n0) ->
    reach (map uid us) cs (fromUnitId e) (toUnitId e).
Proof.
  intros HA HC e He. unfold generateCompleteConversions, generateCompleteConversions_st in He.
  destruct (Nat.ltb (length us) 2).
  - apply reach_edge. exact He.
  - destruct (emit_all_elems _ _ _ _ _ _ _ He) as (f & t & Hf & Ht & Hne & E1 & E2 & Hor).
    rewrite E1, E2. destruct Hor as [Hs|[_ Hm]].
    + destruct (find_conv_spec _ _ _ _ Hs) as (Hin & F1 & F2).
      rewrite <- F1, <- F2. apply reach_edge. exact Hin.
    + destruct (sound_relax_all us cs _ HA (sound_seed us cs HA HC) _ (ex_intro _ _ Hm))
        as (s & t' & K & As & R).
      destruct (key_inj _ _ _ _ (HA f Hf) As K) as [<- <-].
      destruct R as [E|R]; [contradiction|exact R].
Qed.

Lemma closure_sound_witness :
  reach (map uid [unitA; unitB; unitC]) [edgeAB; edgeBC] "A" "C".
Proof.
  refine (closure_sound uuid_stub show_stub [unitA; unitB; unitC] [edgeAB; edgeBC] 0 _ _
            (mkConv "generated" "A" "C" 6 "x * m" "A to C") _).
  - intros u Hu. simpl in Hu. destruct Hu as [<-|[<-|[<-|[]]]]; reflexivity.
  - intros c Hc. simpl in Hc. destruct Hc as [<-|[<-|[]]]; reflexivity.
  - vm_compute. right. left. reflexivity.
Defined.

(* ------------------------------------------------------------------ *)
(** ** calculateStringSimilarity *)

Lemma in_filter_b {A} (P : A -> Prop) `{forall x, Decision (P x)} l x :
  In x (filter P l) <-> P x /\ In x l.
Proof. rewrite <- !list_elem_of_In. apply list_elem_of_filter. Qed.

Lemma set_of_in x l : In x (set_of l) <-> In x l.
Proof.
  induction l as [|a l IH]; simpl; [tauto|].
  rewrite in_filter_b, IH. cbv beta. rewrite Is_true_true.
  unfold str_eqb. destruct (string_dec x a) as [->|Ne]; [tauto|].
  rewrite bool_decide_false by exact Ne. simpl. intuition.
Qed.

Lemma set_of_nodup l : NoDup (set_of l).
Proof.
  induction l as [|a l IH]; simpl; constructor.
  - intros Hin.
    first [apply in_filter_b in Hin as [H _] | apply list_elem_of_filter in Hin as [H _]].
    cbv beta in H. unfold str_eqb in H. rewrite bool_decide_true in H by reflexivity.
    exact H.
  - apply NoDup_filter. exact IH.
Qed.

Lemma split_ws_aux_nonempty s cur b : split_ws_aux s cur b <> [].
Proof.
  revert cur b. induction s as [|c s IH]; intros cur b; simpl; [discriminate|].
  destruct (is_ws c); [destruct b; [apply IH|discriminate]|apply IH].
Qed.

Lemma set_of_split_nonempty s : 0 < length (set_of (split_ws s)).
Proof.
  unfold split_ws. destruct (split_ws_aux s "" false) eqn:E; simpl; [|lia].
  exfalso. exact (split_ws_aux_nonempty _ _ _ E).
Qed.

Lemma existsb_str_in x l : existsb (str_eqb x) l = true <-> In x l.
Proof.
  rewrite existsb_exists. split.
  - intros (y & Hy & E). unfold str_eqb in E. apply bool_decide_eq_true in E. subst. exact Hy.
  - intros H. exists x. split; [exact H|]. unfold str_eqb. apply bool_decide_eq_true. reflexivity.
Qed.

Lemma nodup_same_length (l1 l2 : list string) :
  NoDup l1 -> NoDup l2 -> (forall x, In x l1 <-> In x l2) -> length l1 = length l2.
Proof.
  intros N1 N2 H. apply Nat.le_antisymm.
  - apply List.NoDup_incl_length; [apply NoDup_ListNoDup; exact N1|]. intros x Hx. apply H. exact Hx.
  - apply List.NoDup_incl_length; [apply NoDup_ListNoDup; exact N2|]. intros x Hx. apply H. exact Hx.
Qed.

Lemma inter_in w1 w2 x :
  In x (set_of (filter (fun x => existsb (str_eqb x) w2) w1)) <-> In x w1 /\ In x w2.
Proof.
  rewrite set_of_in, in_filter_b. cbv beta. rewrite Is_true_true, existsb_str_in. tauto.
Qed.

Lemma ratio_bounds (a b : nat) : a <= b -> 0 < b ->
  (0 <= inject_Z (Z.of_nat a) / inject_Z (Z.of_nat b) * 100 <= 100)%Q.
Proof.
  intros Hab Hb.
  assert (Hb' : (0 < inject_Z (Z.of_nat b))%Q)
    by (change 0%Q with (inject_Z 0); rewrite <- Zlt_Qlt; lia).
  split.
  - apply Qmult_le_0_compat; [|discriminate].
    apply Qle_shift_div_l; [exact Hb'|]. rewrite Qmult_0_l.
    change 0%Q with (inject_Z 0). rewrite <- Zle_Qle. lia.
  - apply (Qle_trans _ (1 * 100)); [|discriminate].
    apply Qmult_le_compat_r; [|discriminate].
    apply Qle_shift_div_r; [exact Hb'|]. rewrite Qmult_1_l. rewrite <- Zle_Qle. lia.
Qed.

(** calculateStringSimilarity is symmetric, lies between 0 and 100, and is
    100 for a string compared with itself (the union of the word sets is
    never empty, since splitting always yields at least one piece). *)
Theorem calculateStringSimilarity_props (s1 s2 : string) :
  calculateStringSimilarity s1 s2 = calculateStringSimilarity s2 s1 /\
  (0 <= calculateStringSimilarity s1 s2 <= 100)%Q /\
  (calculateStringSimilarity s1 s1 == 100)%Q.
Proof.
  unfold calculateStringSimilarity, calculateStringSimilarity_by.
  set (w1 := set_of (split_ws (toLowerCase s1))).
  set (w2 := set_of (split_ws (toLowerCase s2))).
  assert (N1 : 0 < length w1) by apply set_of_split_nonempty.
  split; [|split].
  - rewrite (nodup_same_length (set_of (filter (fun x => existsb (str_eqb x) w2) w1))
               (set_of (filter (fun x => existsb (str_eqb x) w1) w2)));
      [| apply set_of_nodup | apply set_of_nodup |
         intros x; rewrite !inter_in; tauto].
    rewrite (nodup_same_length (set_of (w1 ++ w2)%list) (set_of (w2 ++ w1)%list));
      [reflexivity | apply set_of_nodup | apply set_of_nodup |].
    intros x. rewrite !set_of_in, !in_app_iff. tauto.
  - apply ratio_bounds.
    + apply List.NoDup_incl_length; [apply NoDup_ListNoDup, set_of_nodup|].
      intros x Hx. apply inter_in in Hx as [Hx _]. apply set_of_in, in_or_app. auto.
    + assert (length w1 <= length (set_of (w1 ++ w2)%list)); [|lia].
      apply List.NoDup_incl_length; [apply NoDup_ListNoDup, set_of_nodup|].
      intros x Hx. apply set_of_in, in_or_app. auto.
  - rewrite (nodup_same_length (set_of (filter (fun x => existsb (str_eqb x) w1) w1)) w1);
      [| apply set_of_nodup | apply set_of_nodup | intros x; rewrite inter_in; tauto].
    rewrite (nodup_same_length (set_of (w1 ++ w1)%list) w1);
      [| apply set_of_nodup | apply set_of_nodup |
         intros x; rewrite set_of_in, in_app_iff; tauto].
    assert (Hn : ~ (inject_Z (Z.of_nat (length w1)) == 0)%Q).
    { change 0%Q with (inject_Z 0). rewrite inject_Z_injective. lia. }
    unfold Qdiv. rewrite Qmult_inv_r by exact Hn. reflexivity.
Qed.

(* ------------------------------------------------------------------ *)
(** ** The linking loop of linkUnits *)

Lemma filter_cons_b {A} (p : A -> bool) a l :
  filter (fun x => p x) (a :: l) =
  if p a then a :: filter (fun x => p x) l else filter (fun x => p x) l.
Proof.
  rewrite filter_cons. case_decide as H; destruct (p a); simpl in H;
    first [reflexivity | contradiction | exfalso; apply H; exact I].
Qed.

Lemma link_alt_eq units ids st a :
  link_alt units (ids, st) a =
  match findUnitBySymbol a units with
  | Some u => ((ids ++ [uid u])%list, count_linked st)
  | None => (ids, count_unmatched st a)
  end.
Proof. reflexivity. Qed.

Lemma link_alt_fold units alts ids st :
  fold_left (link_alt units) alts (ids, st) =
  ((ids ++ omap (fun a => option_map uid (findUnitBySymbol a units)) alts)%list,
   fold_left (ref_step units) alts st).
Proof.
  revert ids st. induction alts as [|a alts IH]; intros ids st; cbn [fold_left].
  - rewrite app_nil_r. reflexivity.
  - rewrite link_alt_eq. unfold ref_step at 2, resolves.
    destruct (findUnitBySymbol a units) as [u|] eqn:E; rewrite IH; simpl; rewrite E.
    + rewrite <- app_assoc. reflexivity.
    + reflexivity.
Qed.

Lemma find_empty units : findUnitBySymbol "" units = None.
Proof. reflexivity. Qed.

Ltac link_rel_tac :=
  repeat split; simpl; intros; simpl in *; try reflexivity; try congruence;
  repeat match goal with
  | H : Some _ = Some _ |- _ => injection H as H; subst
  end;
  try reflexivity; try congruence;
  try (rewrite find_empty in *; congruence);
  try (exfalso; match goal with H : forall q, Some ?x = Some q -> _ |- _ =>
                 specialize (H _ eq_refl); congruence end);
  try (match goal with H : forall l, Some ?x = Some l -> _ |- _ =>
                 specialize (H _ eq_refl); discriminate end).

Ltac link_alt_tac au :=
  unfold link_alternates; simpl;
  destruct au as [[|a alts]|];
  [| rewrite link_alt_fold |]; simpl;
  try (match goal with R : ref_step _ _ _ = _ |- _ => rewrite R end);
  (eexists; split; [reflexivity|]); link_rel_tac.

Lemma link_spec_shape units out st s :
  exists s', link_spec units (out, st) s =
    ((out ++ [s'])%list, fold_left (ref_step units) (unit_refs s) st) /\ link_rel units s s'.
Proof.
  destruct s as [pu au pid pgid aids]. unfold link_spec, link_primary, unit_refs; simpl.
  destruct pu as [p|].
  - destruct (str_eqb p "") eqn:Ee.
    + unfold str_eqb in Ee. apply bool_decide_eq_true in Ee. subst p. link_alt_tac au.
    + destruct (findUnitBySymbol p units) as [u|] eqn:Eu.
      * assert (R : ref_step units st p = count_linked st)
          by (unfold ref_step, resolves; rewrite Eu; reflexivity).
        link_alt_tac au.
      * assert (R : ref_step units st p = count_unmatched st p)
          by (unfold ref_step, resolves; rewrite Eu; reflexivity).
        link_alt_tac au.
  - link_alt_tac au.
Qed.

Lemma linkUnits_fold units specs out st :
  exists out', fold_left (link_spec units) specs (out, st) =
    ((out ++ out')%list, fold_left (ref_step units) (concat (map unit_refs specs)) st) /\
    Forall2 (link_rel units) specs out'.
Proof.
  revert out st. induction specs as [|s specs IH]; intros out st; cbn [fold_left map concat].
  - exists []. rewrite app_nil_r. split; [reflexivity|constructor].
  - destruct (link_spec_shape units out st s) as (s' & E & R). rewrite E.
    destruct (IH (out ++ [s'])%list (fold_left (ref_step units) (unit_refs s) st))
      as (out' & E' & F).
    rewrite E'. exists (s' :: out'). split.
    + rewrite <- app_assoc, fold_left_app. reflexivity.
    + constructor; assumption.
Qed.

Lemma ref_fold units l st :
  linked (fold_left (ref_step units) l st) =
    linked st + length (filter (fun x => resolves units x) l) /\
  unmatched (fold_left (ref_step units) l st) =
    unmatched st + length (filter (fun x => unresolved units x) l) /\
  unmatchedUnits (fold_left (ref_step units) l st) =
    fold_left set_add (filter (fun x => unresolved units x) l) (unmatchedUnits st).
Proof.
  revert st. induction l as [|x l IH]; intros st; cbn [fold_left].
  - simpl. split; [lia|split; [lia|reflexivity]].
  - rewrite (filter_cons_b (resolves units)), (filter_cons_b (unresolved units)).
    assert (U : unresolved units x = negb (resolves units x)) by reflexivity. rewrite U.
    destruct (resolves units x) eqn:E; simpl.
    + assert (R : ref_step units st x = count_linked st)
        by (unfold ref_step; rewrite E; reflexivity).
      rewrite R. destruct (IH (count_linked st)) as (A & B & C). simpl in A, B, C.
      split; [lia|split; [lia|exact C]].
    + assert (R : ref_step units st x = count_unmatched st x)
        by (unfold ref_step; rewrite E; reflexivity).
      rewrite R. destruct (IH (count_unmatched st x)) as (A & B & C). simpl in A, B, C.
      split; [lia|split; [lia|exact C]].
Qed.

Lemma filter_split_length units l :
  length (filter (fun x => resolves units x) l) +
  length (filter (fun x => unresolved units x) l) = length l.
Proof.
  induction l as [|x l IH]; [reflexivity|].
  rewrite (filter_cons_b (resolves units)), (filter_cons_b (unresolved units)).
  assert (U : unresolved units x = negb (resolves units x)) by reflexivity. rewrite U.
  destruct (resolves units x); simpl; lia.
Qed.

Lemma set_add_nodup xs x : NoDup xs -> NoDup (set_add xs x).
Proof.
  intros N. unfold set_add. destruct (existsb (str_eqb x) xs) eqn:E; [exact N|].
  apply NoDup_app. split; [exact N|]. split; [|apply NoDup_singleton].
  intros y Hy Hy'. apply list_elem_of_singleton in Hy'. subst y.
  apply list_elem_of_In, existsb_str_in in Hy. congruence.
Qed.

Lemma set_add_in xs x y : In y (set_add xs x) <-> x = y \/ In y xs.
Proof.
  unfold set_add. destruct (existsb (str_eqb x) xs) eqn:E.
  - apply existsb_str_in in E. split; [tauto|]. intros [<-|H]; assumption.
  - rewrite in_app_iff. simpl. tauto.
Qed.

Lemma set_add_length xs x : length (set_add xs x) <= S (length xs).
Proof. unfold set_add. destruct existsb; [lia|]. rewrite length_app. simpl. lia. Qed.

Lemma set_add_fold l xs :
  (NoDup xs -> NoDup (fold_left set_add l xs)) /\
  (forall y, In y (fold_left set_add l xs) <-> In y l \/ In y xs) /\
  length (fold_left set_add l xs) <= length l + length xs.
Proof.
  revert xs. induction l as [|x l IH]; intros xs; cbn [fold_left].
  - simpl. split; [tauto|split; [tauto|lia]].
  - destruct (IH (set_add xs x)) as (A & B & C). split; [|split].
    + intros N. apply A, set_add_nodup, N.
    + intros y. rewrite B, set_add_in. simpl. tauto.
    + pose proof (set_add_length xs x). simpl. lia.
Qed.

Lemma resolves_none units x : resolves units x = false <-> findUnitBySymbol x units = None.
Proof. unfold resolves. destruct (findUnitBySymbol x units); split; congruence. Qed.

(** The counters of linkUnits: after the loop, [linked] is the number of
    unit references (a truthy primaryUnit, then each alternate, over all
    spec types) that findUnitBySymbol resolves, [unmatched] the number it
    does not resolve, so the two add up to the number of references. *)
Theorem linkUnits_counts (units : list Unit) (specTypes : list LinkSpec) :
  let refs := concat (map unit_refs specTypes) in
  let st := snd (linkUnits_loop units specTypes) in
  linked st = length (filter (fun x => resolves units x) refs) /\
  unmatched st = length (filter (fun x => unresolved units x) refs) /\
  linked st + unmatched st = length refs.
Proof.
  intros refs st. unfold st, refs, linkUnits_loop.
  destruct (linkUnits_fold units specTypes [] (mkLS 0 0 [])) as (out & E & _).
  rewrite E. simpl. destruct (ref_fold units (concat (map unit_refs specTypes)) (mkLS 0 0 [])) as (A & B & _).
  rewrite A, B. simpl. split; [reflexivity|split; [reflexivity|]].
  apply filter_split_length.
Qed.

(** The unmatchedUnits set of linkUnits holds each unresolved reference
    once: it has no duplicates, a symbol is in it exactly when some spec
    type references it and findUnitBySymbol finds no unit for it, and its
    size is at most the [unmatched] count. *)
Theorem linkUnits_unmatched_set (units : list Unit) (specTypes : list LinkSpec) :
  let refs := concat (map unit_refs specTypes) in
  let st := snd (linkUnits_loop units specTypes) in
  NoDup (unmatchedUnits st) /\
  (forall x, In x (unmatchedUnits st) <-> In x refs /\ findUnitBySymbol x units = None) /\
  length (unmatchedUnits st) <= unmatched st.
Proof.
  intros refs st. unfold st, refs, linkUnits_loop.
  destruct (linkUnits_fold units specTypes [] (mkLS 0 0 [])) as (out & E & _).
  rewrite E. simpl. destruct (ref_fold units (concat (map unit_refs specTypes)) (mkLS 0 0 [])) as (_ & B & C).
  rewrite B, C. simpl.
  destruct (set_add_fold (filter (fun x => unresolved units x) (concat (map unit_refs specTypes))) []) as (N & I & L).
  split; [apply N, NoDup_nil_2|]. split.
  - intros x. rewrite I, in_filter_b. cbv beta. rewrite Is_true_true.
    unfold unresolved. rewrite negb_true_iff, resolves_none. simpl. tauto.
  - simpl in L. lia.
Qed.

(** The updates linkUnits makes to each spec type: the output has one spec
    type per input, in order; primaryUnit and alternateUnits are kept; a
    primaryUnit that resolves to unit u sets primaryUnitId to u's id and
    primaryUnitGroupId to u's group (or undefined), one that is falsy or
    does not resolve leaves both as they were (an earlier link is not
    cleared); a non-empty alternateUnits list replaces alternateUnitIds by
    the ids of the alternates that resolve, in order, and an absent or
    empty one leaves alternateUnitIds as it was. *)
Theorem linkUnits_updates (units : list Unit) (specTypes : list LinkSpec) :
  Forall2 (link_rel units) specTypes (fst (linkUnits_loop units specTypes)).
Proof.
  unfold linkUnits_loop.
  destruct (linkUnits_fold units specTypes [] (mkLS 0 0 [])) as (out & E & F).
  rewrite E. exact F.
Qed.

(* ------------------------------------------------------------------ *)
(** ** The summary of ensureCompleteConversions *)

Lemma reduce_sum (l : list UnitGroup) a :
  fold_left (fun sum g => sum + length (gconversions g))%nat l a =
  (a + sum_list (map (fun g => length (gconversions g)) l))%nat.
Proof. revert a. induction l as [|g l IH]; intros a; simpl; [lia|rewrite IH; lia]. Qed.

Lemma ensure_totals_fold gU nts allUnits (groups : list UnitGroup) done reps n t :
  exists out' reps' n' t',
    fold_left (ensure_totals_step gU nts allUnits) groups ((done, reps, n), t) =
      (((done ++ out')%list, reps', n'), t') /\
    Z.of_nat (sum_list (map (fun g => length (gconversions g)) out')) =
      (Z.of_nat (sum_list (map (fun g => length (gconversions g)) groups))
       + (totalGenerated t' - totalGenerated t))%Z /\
    totalOriginal t' =
      (totalOriginal t + Z.of_nat (sum_list (map (fun g => length (gconversions g)) groups)))%Z /\
    groupsFixed t' = (groupsFixed t + length (filter (fun g => ensure_fixes allUnits g) groups))%nat.
Proof.
  revert done reps n t. induction groups as [|g l IH]; intros done reps n t; cbn [fold_left].
  - exists [], reps, n, t. rewrite app_nil_r. simpl. repeat split; lia.
  - rewrite (filter_cons_b (ensure_fixes allUnits)).
    set (N := length (group_units allUnits g)).
    assert (Ef : ensure_fixes allUnits g = Nat.ltb (length (gconversions g)) (N * (N - 1)))
      by reflexivity.
    rewrite Ef.
    destruct (Nat.ltb (length (gconversions g)) (N * (N - 1))) eqn:Elt.
    + destruct (generateCompleteConversions_st gU nts
                  (group_units allUnits g) (gconversions g) n) as [complete n1] eqn:Eg.
      assert (E : ensure_totals_step gU nts allUnits ((done, reps, n), t) g =
                  (((done ++ [set_conversions g complete])%list,
                    (reps ++ [validateConversions complete])%list, n1),
                   mkTotals (totalOriginal t + Z.of_nat (length (gconversions g)))%Z
                     (totalGenerated t + (Z.of_nat (length complete)
                                          - Z.of_nat (length (gconversions g))))%Z
                     (S (groupsFixed t)))).
      { unfold ensure_totals_step, ensure_step. fold N. rewrite Elt, Eg. reflexivity. }
      rewrite E.
      destruct (IH (done ++ [set_conversions g complete])%list
                   (reps ++ [validateConversions complete])%list n1
                   (mkTotals (totalOriginal t + Z.of_nat (length (gconversions g)))%Z
                     (totalGenerated t + (Z.of_nat (length complete)
                                          - Z.of_nat (length (gconversions g))))%Z
                     (S (groupsFixed t))))
        as (out' & reps' & n' & t' & Efold & S1 & S2 & S3).
      exists (set_conversions g complete :: out'), reps', n', t'.
      rewrite Efold, <- app_assoc. simpl in S1, S2, S3 |- *.
      split; [reflexivity|]. split; [lia|]. split; lia.
    + assert (E : ensure_totals_step gU nts allUnits ((done, reps, n), t) g =
                  (((done ++ [g])%list, reps, n),
                   mkTotals (totalOriginal t + Z.of_nat (length (gconversions g)))%Z
                     (totalGenerated t) (groupsFixed t))).
      { unfold ensure_totals_step, ensure_step. fold N. rewrite Elt. reflexivity. }
      rewrite E.
      destruct (IH (done ++ [g])%list reps n
                   (mkTotals (totalOriginal t + Z.of_nat (length (gconversions g)))%Z
                     (totalGenerated t) (groupsFixed t)))
        as (out' & reps' & n' & t' & Efold & S1 & S2 & S3).
      exists (g :: out'), reps', n', t'.
      rewrite Efold, <- app_assoc. simpl in S1, S2, S3 |- *.
      split; [reflexivity|]. split; [lia|]. split; lia.
Qed.

(** The summary of ensureCompleteConversions adds up: the printed
    "Original conversions" is the number of conversions all groups had, the
    printed "Groups fixed" is the number of groups with fewer conversions
    than n(n-1) for their n units, and metadata.totalConversions equals
    totalOriginal + totalGenerated. *)
Theorem ensure_summary_totals (generateUUID : nat -> string) (num_to_string : Q -> string)
    (allUnits : list Unit) (groups : list UnitGroup) (n0 : nat) :
  let '(t, totalConversions) := ensure_summary generateUUID num_to_string allUnits groups n0 in
  totalOriginal t = Z.of_nat (sum_list (map (fun g => length (gconversions g)) groups)) /\
  groupsFixed t = length (filter (fun g => ensure_fixes allUnits g) groups) /\
  Z.of_nat totalConversions = (totalOriginal t + totalGenerated t)%Z.
Proof.
  unfold ensure_summary.
  destruct (ensure_totals_fold generateUUID num_to_string allUnits groups [] [] n0 (mkTotals 0 0 0))
    as (out' & reps' & n' & t' & E & S1 & S2 & S3).
  rewrite E. simpl in S1, S2, S3 |- *. rewrite reduce_sum.
  split; [lia|]. split; lia.
Qed.

(* ------------------------------------------------------------------ *)
(** ** validateSpecTypes: exact duplicates *)

Lemma find_app {A} (f : A -> bool) l1 l2 :
  find f (l1 ++ l2)%list = match find f l1 with Some y => Some y | None => find f l2 end.
Proof. induction l1 as [|a l1 IH]; simpl; [reflexivity|]. destruct (f a); [reflexivity|exact IH]. Qed.

Lemma find_none_notin (f : VSpec -> bool) l :
  (forall s, In s l -> f s = false) -> find f l = None.
Proof.
  intros H. destruct (find f l) as [s|] eqn:E; [|reflexivity].
  apply find_some in E as [Hin Hf]. rewrite (H s Hin) in Hf. discriminate.
Qed.

Lemma set_of_snoc_in (l : list string) x :
  In x l -> length (set_of (l ++ [x])%list) = length (set_of l).
Proof.
  intros Hx. apply nodup_same_length; [apply set_of_nodup|apply set_of_nodup|].
  intros y. rewrite !set_of_in, in_app_iff. simpl. intuition congruence.
Qed.

Lemma set_of_snoc_notin (l : list string) x :
  ~ In x l -> length (set_of (l ++ [x])%list) = S (length (set_of l)).
Proof.
  intros Hx. rewrite (nodup_same_length (set_of (l ++ [x])%list) (set_of l ++ [x])%list).
  - rewrite length_app. simpl. lia.
  - apply set_of_nodup.
  - apply NoDup_app. split; [apply set_of_nodup|]. split; [|apply NoDup_singleton].
    intros y Hy Hy'. apply list_elem_of_singleton in Hy'. subst y.
    apply list_elem_of_In in Hy. rewrite set_of_in in Hy. contradiction.
  - intros y. rewrite in_app_iff, !set_of_in, in_app_iff. tauto.
Qed.

Lemma set_of_length_nodup (l : list string) : length (set_of l) = length l <-> NoDup l.
Proof.
  split.
  - intros E. apply NoDup_ListNoDup.
    eapply List.NoDup_incl_NoDup; [apply NoDup_ListNoDup, (set_of_nodup l)| |]; [lia|].
    intros x Hx. apply set_of_in. exact Hx.
  - intros N. apply nodup_same_length; [apply set_of_nodup|exact N|]. intros y. apply set_of_in.
Qed.

Definition same_lower (k : string) (s : VSpec) : bool := str_eqb (toLowerCase (vprimaryName s)) k.

Lemma exact_fold (P : list VSpec) :
  let '(m, d) := fold_left exact_step P (∅, []) in
  (forall k s, m !! k = Some s -> find (same_lower k) P = Some s) /\
  (forall k, is_Some (m !! k) <-> In k (map (fun s => toLowerCase (vprimaryName s)) P)) /\
  (forall a b, In (a, b) d -> In b (map vprimaryName P) /\
     exists first, find (same_lower (toLowerCase b)) P = Some first /\ a = vprimaryName first) /\
  length d + length (set_of (map (fun s => toLowerCase (vprimaryName s)) P)) = length P.
Proof.
  induction P as [|x P IH] using rev_ind.
  - simpl. split; [intros k s H; rewrite lookup_empty in H; discriminate|].
    split; [intros k; rewrite lookup_empty; split; [intros [? H]; discriminate|intros []]|].
    split; [intros a b []|reflexivity].
  - rewrite fold_left_app. destruct (fold_left exact_step P (∅, [])) as [m d].
    destruct IH as (I1 & I2 & I3 & I4). cbn [fold_left exact_step].
    set (k := toLowerCase (vprimaryName x)).
    assert (Hmap : map (fun s => toLowerCase (vprimaryName s)) (P ++ [x])%list =
                   (map (fun s => toLowerCase (vprimaryName s)) P ++ [k])%list)
      by (rewrite map_app; reflexivity).
    rewrite Hmap, !length_app. simpl length.
    assert (Keep : forall k' s, find (same_lower k') P = Some s ->
                     find (same_lower k') (P ++ [x])%list = Some s)
      by (intros k' s E; rewrite find_app, E; reflexivity).
    destruct (m !! k) as [first|] eqn:Ek.
    + assert (Hk : In k (map (fun s => toLowerCase (vprimaryName s)) P))
        by (apply I2; rewrite Ek; eauto).
      split; [|split; [|split]].
      * intros k' s E. apply Keep, I1, E.
      * intros k'. rewrite I2, in_app_iff. simpl. intuition congruence.
      * intros a b Hab. apply in_app_or in Hab as [Hab|[E|[]]].
        -- destruct (I3 a b Hab) as (Hb & f & Ef & ->). split.
           ++ rewrite map_app. apply in_or_app. auto.
           ++ exists f. split; [apply Keep, Ef|reflexivity].
        -- injection E as <- <-. split.
           ++ rewrite map_app. apply in_or_app. simpl. auto.
           ++ exists first. split; [apply Keep, I1, Ek|reflexivity].
      * rewrite set_of_snoc_in by exact Hk. rewrite length_app. simpl. lia.
    + assert (Hk : ~ In k (map (fun s => toLowerCase (vprimaryName s)) P)).
      { intros H. apply I2 in H as [s Hs]. congruence. }
      assert (Fn : find (same_lower k) P = None).
      { apply find_none_notin. intros s Hs. unfold same_lower, str_eqb.
        apply bool_decide_eq_false. intros E. apply Hk. rewrite <- E.
        apply (in_map (fun s => toLowerCase (vprimaryName s))), Hs. }
      split; [|split; [|split]].
      * intros k' s E. destruct (string_dec k k') as [<-|Ne].
        -- rewrite lookup_insert_eq in E. injection E as <-.
           rewrite find_app, Fn. simpl. unfold same_lower, str_eqb.
           rewrite bool_decide_true by reflexivity. reflexivity.
        -- rewrite lookup_insert_ne in E by exact Ne. apply Keep, I1, E.
      * intros k'. rewrite in_app_iff, <- I2. simpl. destruct (string_dec k k') as [<-|Ne].
        -- rewrite lookup_insert_eq. split; eauto.
        -- rewrite lookup_insert_ne by exact Ne. intuition congruence.
      * intros a b Hab. destruct (I3 a b Hab) as (Hb & f & Ef & ->). split.
        -- rewrite map_app. apply in_or_app. auto.
        -- exists f. split; [apply Keep, Ef|reflexivity].
      * rewrite set_of_snoc_notin by exact Hk. simpl. lia.
Qed.

(** The exact duplicates of validateSpecTypes: each entry (a, b) pairs the
    name b of a spec type with the name a of the first spec type whose
    lowercased name equals b's lowercased name; there are as many entries as
    spec types minus distinct lowercased names, so there are none exactly
    when the lowercased primary names are pairwise distinct. *)
Theorem exact_duplicates_props (specTypes : list VSpec) :
  let dups := exact_duplicates specTypes in
  (forall a b, In (a, b) dups ->
     In b (map vprimaryName specTypes) /\
     exists first,
       find (fun s => str_eqb (toLowerCase (vprimaryName s)) (toLowerCase b)) specTypes = Some first /\
       a = vprimaryName first /\ toLowerCase a = toLowerCase b) /\
  length dups + length (set_of (map (fun s => toLowerCase (vprimaryName s)) specTypes))
    = length specTypes /\
  (dups = [] <-> NoDup (map (fun s => toLowerCase (vprimaryName s)) specTypes)).
Proof.
  intros dups. unfold dups, exact_duplicates.
  pose proof (exact_fold specTypes) as H.
  destruct (fold_left exact_step specTypes (∅, [])) as [m d]. simpl.
  destruct H as (_ & _ & I3 & I4). split; [|split; [exact I4|]].
  - intros a b Hab. destruct (I3 a b Hab) as (Hb & f & Ef & ->). split; [exact Hb|].
    exists f. split; [exact Ef|]. split; [reflexivity|].
    apply find_some in Ef as [_ Hf]. unfold str_eqb in Hf. apply bool_decide_eq_true in Hf. exact Hf.
  - rewrite <- set_of_length_nodup. rewrite length_map.
    split; [intros ->; simpl in I4; lia|].
    intros E. destruct d; [reflexivity|]. simpl in I4. lia.
Qed.

(* ------------------------------------------------------------------ *)
(** ** validateSpecTypes: warnings and errors *)

Lemma alt_step_eq m w x :
  exists msg, alt_step (m, w) x =
    if no_alternates x then ((m ++ [vprimaryName x])%list, (w ++ [msg])%list) else (m, w).
Proof. unfold alt_step, no_alternates. destruct (valternateNames x); simpl; eauto. Qed.

Lemma not_step_eq m w x :
  exists msg, not_step (m, w) x =
    if no_not_names x then ((m ++ [vprimaryName x])%list, (w ++ [msg])%list) else (m, w).
Proof. unfold not_step, no_not_names. destruct (vnotNames x); simpl; eauto. Qed.

Lemma value_step_eq m e x :
  exists msgs, value_step (m, e) x =
    ((m ++ if invalid_select x then [vprimaryName x] else [])%list, (e ++ msgs)%list) /\
    length msgs = (if invalid_select x then 1 else 0) + (if bad_range x then 1 else 0).
Proof.
  unfold value_step, invalid_select.
  destruct (is_select x && no_options x), (bad_range x); simpl.
  - eexists; split; [rewrite <- app_assoc; reflexivity|reflexivity].
  - eexists; split; [reflexivity|reflexivity].
  - exists [("Spec type " +:+ dq +:+ vprimaryName x +:+ dq +:+ " has minValue > maxValue")].
    rewrite app_nil_r. split; reflexivity.
  - exists []. rewrite !app_nil_r. split; reflexivity.
Qed.

Lemma alt_fold l m w :
  let '(m', w') := fold_left alt_step l (m, w) in
  m' = (m ++ map vprimaryName (filter (fun s => no_alternates s) l))%list /\
  length w' = length w + length (filter (fun s => no_alternates s) l).
Proof.
  revert m w. induction l as [|x l IH]; intros m w; cbn [fold_left].
  - simpl. rewrite app_nil_r. split; [reflexivity|lia].
  - destruct (alt_step_eq m w x) as [msg ->]. rewrite (filter_cons_b no_alternates).
    destruct (no_alternates x).
    + specialize (IH (m ++ [vprimaryName x])%list (w ++ [msg])%list).
      destruct (fold_left alt_step l _) as [m' w']. destruct IH as [-> H].
      rewrite <- app_assoc, length_app in *. simpl in *. split; [reflexivity|lia].
    + exact (IH m w).
Qed.

Lemma not_fold l m w :
  let '(m', w') := fold_left not_step l (m, w) in
  m' = (m ++ map vprimaryName (filter (fun s => no_not_names s) l))%list /\
  length w' = length w + length (filter (fun s => no_not_names s) l).
Proof.
  revert m w. induction l as [|x l IH]; intros m w; cbn [fold_left].
  - simpl. rewrite app_nil_r. split; [reflexivity|lia].
  - destruct (not_step_eq m w x) as [msg ->]. rewrite (filter_cons_b no_not_names).
    destruct (no_not_names x).
    + specialize (IH (m ++ [vprimaryName x])%list (w ++ [msg])%list).
      destruct (fold_left not_step l _) as [m' w']. destruct IH as [-> H].
      rewrite <- app_assoc, length_app in *. simpl in *. split; [reflexivity|lia].
    + exact (IH m w).
Qed.

Lemma value_fold l m e :
  let '(m', e') := fold_left value_step l (m, e) in
  m' = (m ++ map vprimaryName (filter (fun s => invalid_select s) l))%list /\
  length e' = length e + length (filter (fun s => invalid_select s) l)
              + length (filter (fun s => bad_range s) l).
Proof.
  revert m e. induction l as [|x l IH]; intros m e; cbn [fold_left].
  - simpl. rewrite app_nil_r. split; [reflexivity|lia].
  - destruct (value_step_eq m e x) as (msgs & -> & Hl).
    rewrite (filter_cons_b invalid_select), (filter_cons_b bad_range).
    specialize (IH (m ++ if invalid_select x then [vprimaryName x] else [])%list (e ++ msgs)%list).
    destruct (fold_left value_step l _) as [m' e']. destruct IH as [-> H].
    rewrite length_app in H. rewrite <- app_assoc.
    destruct (invalid_select x), (bad_range x); simpl in *; split; (reflexivity || lia).
Qed.

(** The per-spec-type checks of validateSpecTypes: missingAlternateNames
    and missingNotNames list, in order, the primary names of the spec types
    with no alternate names and with no "not names", and there is one
    warning per entry of the two lists; invalidValueTypes lists the SELECT or
    MULTI_SELECT spec types with no value options, and there is one error
    per such spec type plus one per NUMERIC spec type whose minValue exceeds
    its maxValue. *)
Theorem validateSpecTypes_checks (compareSpecs : VSpec -> VSpec -> option PairResult)
    (specTypes : list VSpec) :
  let r := validateSpecTypes compareSpecs specTypes in
  totalSpecTypes r = length specTypes /\
  missingAlternateNames r = map vprimaryName (filter (fun s => no_alternates s) specTypes) /\
  missingNotNames r = map vprimaryName (filter (fun s => no_not_names s) specTypes) /\
  length (warnings r) = length (missingAlternateNames r) + length (missingNotNames r) /\
  invalidValueTypes r = map vprimaryName (filter (fun s => invalid_select s) specTypes) /\
  length (errors r) = length (invalidValueTypes r) + length (filter (fun s => bad_range s) specTypes).
Proof.
  unfold validateSpecTypes.
  pose proof (alt_fold specTypes [] []) as HA.
  destruct (fold_left alt_step specTypes ([], [])) as [ma w1]. destruct HA as [-> HA].
  pose proof (not_fold specTypes [] w1) as HN.
  destruct (fold_left not_step specTypes ([], w1)) as [mn w2]. destruct HN as [-> HN].
  pose proof (value_fold specTypes [] []) as HV.
  destruct (fold_left value_step specTypes ([], [])) as [mv e]. destruct HV as [-> HV].
  simpl in *. rewrite !length_map. repeat split; lia.
Qed.

(* ------------------------------------------------------------------ *)
(** ** validateSpecTypes: semantic duplicates *)

Lemma omap_cons_eq {A B} (f : A -> option B) (a : A) (l : list A) :
  omap f (a :: l) = match f a with Some y => y :: omap f l | None => omap f l end.
Proof. reflexivity. Qed.

Lemma omap_length_le {A B} (f : A -> option B) (l : list A) : length (omap f l) <= length l.
Proof.
  induction l as [|a l IH]; [simpl; lia|]. rewrite omap_cons_eq. destruct (f a); simpl; lia.
Qed.

Lemma sem_from cmp x rest acc :
  fold_left (sem_step cmp x) rest acc = (acc ++ omap (fun y => sem_entry cmp x y) rest)%list.
Proof.
  revert acc. induction rest as [|y rest IH]; intros acc; cbn [fold_left].
  - rewrite app_nil_r. reflexivity.
  - rewrite IH, omap_cons_eq. unfold sem_step. destruct (sem_entry cmp x y); [|reflexivity].
    rewrite <- app_assoc. reflexivity.
Qed.

Lemma sem_loop_pairs cmp specs acc :
  sem_loop cmp specs acc =
  (acc ++ omap (fun '(a, b) => sem_entry cmp a b) (all_pairs specs))%list.
Proof.
  revert acc. induction specs as [|x rest IH]; intros acc; simpl.
  - rewrite app_nil_r. reflexivity.
  - rewrite IH, sem_from, omap_app, <- app_assoc. f_equal. f_equal.
    clear. induction rest as [|y rest IH]; [reflexivity|]. cbn [map].
    rewrite !omap_cons_eq, IH. reflexivity.
Qed.

Lemma all_pairs_length {A} (l : list A) : 2 * length (all_pairs l) = length l * (length l - 1).
Proof.
  induction l as [|x l IH]; [reflexivity|]. simpl. rewrite length_app, length_map.
  destruct (length l) as [|n]; simpl in *; nia.
Qed.

(** The semantic duplicates of validateSpecTypes: with fewer than two spec
    types the comparison is not run and the list is empty; otherwise the
    pairs (i, j) with i < j are compared one by one, in loop order, and the
    list holds, in that order, the entry of each pair whose answer could be
    parsed and says areDuplicates or a similarity of at least 85, a pair whose
    comparison throws being skipped; so it has at most n(n-1)/2 entries. *)
Theorem validateSpecTypes_semantic (compareSpecs : VSpec -> VSpec -> option PairResult)
    (specTypes : list VSpec) :
  let sem := semanticDuplicates (validateSpecTypes compareSpecs specTypes) in
  sem = (if Nat.ltb 1 (length specTypes)
         then omap (fun '(a, b) => sem_entry compareSpecs a b) (all_pairs specTypes)
         else []) /\
  2 * length sem <= length specTypes * (length specTypes - 1).
Proof.
  intros sem. unfold sem, validateSpecTypes.
  destruct (fold_left alt_step specTypes ([], [])) as [ma w1].
  destruct (fold_left not_step specTypes ([], w1)) as [mn w2].
  destruct (fold_left value_step specTypes ([], [])) as [mv e]. simpl.
  unfold detectSemanticDuplicates. rewrite sem_loop_pairs. simpl.
  split; [reflexivity|].
  destruct (Nat.ltb 1 (length specTypes)); simpl; [|lia].
  pose proof (omap_length_le (fun '(a, b) => sem_entry compareSpecs a b) (all_pairs specTypes)).
  pose proof (all_pairs_length specTypes). lia.
Qed.

(* ------------------------------------------------------------------ *)
(** ** The batching loops *)

Lemma chunks_fuel_props {A} fuel n (l : list A) :
  0 < n -> length l <= fuel ->
  let bs := chunks_fuel fuel n l in
  Forall (fun b => b <> [] /\ length b <= n) bs /\
  (l = [] -> bs = []) /\
  (l <> [] -> n * (length bs - 1) < length l <= n * length bs) /\
  (forall pre b post, bs = (pre ++ b :: post)%list -> post <> [] -> length b = n).
Proof.
  revert l. induction fuel as [|fuel IH]; intros l Hn Hl; simpl.
  - destruct l; [|simpl in Hl; lia].
    split; [constructor|]. split; [reflexivity|]. split; [congruence|].
    intros pre b post E. destruct pre; discriminate.
  - destruct l as [|x l'].
    { split; [constructor|]. split; [reflexivity|]. split; [congruence|].
      intros pre b post E. destruct pre; discriminate. }
    set (l := x :: l') in *.
    assert (Hd : length (skipn n l) <= fuel) by (rewrite length_drop; unfold l in *; simpl in *; lia).
    destruct (IH (skipn n l) Hn Hd) as (HF & H0 & Hb & Hp).
    assert (Ht : length (firstn n l) = Nat.min n (length l)) by apply length_take.
    split; [|split; [|split]].
    + constructor; [|exact HF]. split; [|lia].
      unfold l. destruct n; [lia|]. simpl. discriminate.
    + unfold l. discriminate.
    + intros _. simpl. rewrite Nat.sub_0_r.
      destruct (skipn n l) as [|y rest] eqn:Es.
      * rewrite H0 by reflexivity. simpl.
        assert (length l <= n).
        { pose proof (length_drop l n) as E. rewrite Es in E. unfold l in *. simpl in *. lia. }
        unfold l in *. simpl in *. lia.
      * assert (Hne : y :: rest <> []) by discriminate.
        specialize (Hb Hne). rewrite <- Es in *.
        pose proof (length_drop l n) as E.
        remember (length (chunks_fuel fuel n (skipn n l))) as K eqn:EK. clear EK.
        rewrite E in Hb. unfold l in *. simpl in *. destruct K; nia.
    + intros pre b post E Hpost. destruct pre as [|c pre]; simpl in E; injection E as E1 E2.
      * subst b. rewrite Ht.
        destruct (skipn n l) as [|y rest] eqn:Es.
        -- rewrite H0 in E2 by reflexivity. subst post. congruence.
        -- pose proof (length_drop l n) as E. rewrite Es in E. unfold l in *. simpl in *. lia.
      * exact (Hp pre b post E2 Hpost).
Qed.

(** The batching loop [for (let i = 0; i < l.length; i += n)] with
    [l.slice(i, Math.min(i + n, l.length))], used with n = 10 by
    batchDetectDuplicates and with n = 20 by both phases of linkUnits:
    the batches are the list cut in order, none is empty, each has at most
    n elements and all but the last exactly n; an empty list gives no batch
    and a list of length L gives ceil(L / n) batches. *)
Theorem batches_props {A} (n : nat) (l : list A) (Hn : 0 < n) :
  let bs := batches n l in
  concat bs = l /\
  Forall (fun b => b <> [] /\ length b <= n) bs /\
  (forall pre b post, bs = (pre ++ b :: post)%list -> post <> [] -> length b = n) /\
  (l = [] -> bs = []) /\
  (l <> [] -> n * (length bs - 1) < length l <= n * length bs).
Proof.
  intros bs. destruct (chunks_fuel_props (length l) n l Hn (le_n _)) as (HF & H0 & Hb & Hp).
  split; [apply batches_concat; exact Hn|]. unfold bs, batches. auto.
Qed.

Lemma batches_props_witness :
  0 < 10 /\
  (let bs := batches 10 (seq 0 25) in
   concat bs = seq 0 25 /\
   Forall (fun b => b <> [] /\ length b <= 10) bs /\
   (forall pre b post, bs = (pre ++ b :: post)%list -> post <> [] -> length b = 10) /\
   (seq 0 25 = [] -> bs = []) /\
   (seq 0 25 <> [] -> 10 * (length bs - 1) < length (seq 0 25) <= 10 * length bs)).
Proof. split; [lia|]. apply (batches_props 10 (seq 0 25)). lia. Defined.

(* ------------------------------------------------------------------ *)
(** ** batchDetectDuplicates and findSemanticDuplicates: nothing invented *)

Lemma record_verdicts_sound batch results acc g :
  In g (snd (record_verdicts batch results acc)) ->
  In g acc \/
  exists r k cand, In r results /\ dup_rule r = true /\ pairIndex r = Some k /\
    nth_error batch k = Some cand /\
    g = mkDup (vsimilarity r) (reason r) [spec1 cand; spec2 cand].
Proof.
  revert acc. induction results as [|r results IH]; intros acc; simpl; [auto|].
  fold (dup_rule r). destruct (dup_rule r) eqn:Er.
  - destruct (pairIndex r) as [k|] eqn:Ek; [|simpl; auto].
    destruct (nth_error batch k) as [cand|] eqn:Ec; [|simpl; auto].
    intros H. destruct (IH _ H) as [H'|(r' & k' & c' & H1 & H2)].
    + apply in_app_or in H' as [H'|[<-|[]]]; [auto|].
      right. exists r, k, cand. auto.
    + right. exists r', k', c'. auto.
  - intros H. destruct (IH _ H) as [H'|(r' & k' & c' & H1 & H2)]; [auto|].
    right. exists r', k', c'. auto.
Qed.

Lemma confirm_fold_sound (confirm : list Candidate -> option (list Verdict)) bs acc g :
  In g (fold_left (confirm_batch confirm) bs acc) ->
  In g acc \/
  exists batch results r k cand, In batch bs /\ confirm batch = Some results /\
    In r results /\ dup_rule r = true /\ pairIndex r = Some k /\
    nth_error batch k = Some cand /\
    g = mkDup (vsimilarity r) (reason r) [spec1 cand; spec2 cand].
Proof.
  revert acc. induction bs as [|b bs IH]; intros acc; simpl; [auto|].
  intros H. destruct (IH _ H) as [H'|(batch & results & r & k & cand & H1 & H2)].
  - unfold confirm_batch in H'. destruct (confirm b) as [results|] eqn:Eb; [|auto].
    destruct (record_verdicts_sound b results acc g H') as [H''|(r & k & cand & H3)]; [auto|].
    right. exists b, results, r, k, cand. auto.
  - right. exists batch, results, r, k, cand. auto.
Qed.

(** batchDetectDuplicates invents nothing: each duplicate group it returns
    carries the similarity and reason of a verdict that the Oracle returned
    for one batch of the candidates, that passes the areDuplicates-or-85
    rule and whose pairIndex points into that batch, and its two spec types
    are the two spec types of the candidate at that index; this holds
    whatever the Oracle answers, also when a batch fails or throws midway. *)
Theorem batchDetectDuplicates_sound (confirmDuplicates : list Candidate -> option (list Verdict))
    (candidates : list Candidate) (g : DuplicateGroup) :
  In g (batchDetectDuplicates confirmDuplicates candidates) ->
  exists batch results r k cand,
    In batch (batches 10 candidates) /\ confirmDuplicates batch = Some results /\
    In r results /\ dup_rule r = true /\ pairIndex r = Some k /\
    nth_error batch k = Some cand /\ In cand candidates /\
    g = mkDup (vsimilarity r) (reason r) [spec1 cand; spec2 cand].
Proof.
  unfold batchDetectDuplicates. intros H.
  destruct (confirm_fold_sound confirmDuplicates _ [] g H) as [[]|(batch & results & r & k & cand & H1 & H2 & H3 & H4 & H5 & H6 & H7)].
  exists batch, results, r, k, cand. repeat split; auto.
  rewrite <- (batches_concat 10 candidates) by lia. apply in_concat.
  exists batch. split; [exact H1|]. eapply nth_error_In. exact H6.
Qed.

Lemma batchDetectDuplicates_sound_witness :
  let sA := mkSpec "1" "Flow Rate" "HVAC" "d" in
  let sB := mkSpec "2" "Flow Rate Max" "HVAC" "d" in
  let c := mkCand sA sB (calculateStringSimilarity "Flow Rate" "Flow Rate Max") in
  let v := mkVerdict (Some 0) true 90 "same" in
  In (mkDup 90 "same" [sA; sB]) (batchDetectDuplicates (fun _ => Some [v]) [c]) /\
  exists batch results r k cand,
    In batch (batches 10 [c]) /\ (fun _ : list Candidate => Some [v]) batch = Some results /\
    In r results /\ dup_rule r = true /\ pairIndex r = Some k /\
    nth_error batch k = Some cand /\ In cand [c] /\
    mkDup 90 "same" [sA; sB] = mkDup (vsimilarity r) (reason r) [spec1 cand; spec2 cand].
Proof.
  intros sA sB c v.
  assert (H : In (mkDup 90 "same" [sA; sB]) (batchDetectDuplicates (fun _ => Some [v]) [c])).
  { vm_compute. left. reflexivity. }
  split; [exact H|]. exact (batchDetectDuplicates_sound (fun _ => Some [v]) [c] _ H).
Defined.

(** findSemanticDuplicates reports only pairs of the library: each group
    it returns holds two spec types x and y (in this order) of the input
    that share a domain, with x before y within that domain's bucket and a
    calculateStringSimilarity of their primary names of at least 30, and
    the similarity and reason of a verdict the Oracle returned for one batch
    of the candidates, that passes the areDuplicates-or-85 rule and whose
    pairIndex points, in that batch, to the candidate (x, y). *)
Theorem findSemanticDuplicates_sound (confirmDuplicates : list Candidate -> option (list Verdict))
    (specTypes : list SpecType) (g : DuplicateGroup) :
  In g (findSemanticDuplicates confirmDuplicates specTypes) ->
  exists x y batch results r k pre mid post,
    In x specTypes /\ In y specTypes /\ domain x = domain y /\
    In (domain x, (pre ++ x :: mid ++ y :: post)%list) (byDomain specTypes) /\
    Qle_bool 30 (calculateStringSimilarity (primaryName x) (primaryName y)) = true /\
    In batch (batches 10 (find_candidates specTypes)) /\
    confirmDuplicates batch = Some results /\ In r results /\
    dup_rule r = true /\ pairIndex r = Some k /\
    nth_error batch k = Some (mkCand x y (calculateStringSimilarity (primaryName x) (primaryName y))) /\
    g = mkDup (vsimilarity r) (reason r) [x; y].
Proof.
  unfold findSemanticDuplicates. intros H.
  assert (H' : In g (batchDetectDuplicates confirmDuplicates (find_candidates specTypes))).
  { destruct (find_candidates specTypes); [destruct H|exact H]. }
  destruct (batchDetectDuplicates_sound _ _ _ H')
    as (batch & results & r & k & cand & Hb & Hres & Hin_r & Hr & Hk & Hnth & Hc & ->).
  apply find_candidates_in in Hc as (d & ss & pre & x & mid & y & post & Hin & Ess & Ecand & Hq).
  subst cand.
  destruct (byDomain_buckets specTypes) as (HB & _ & _).
  destruct (HB d ss Hin x ltac:(rewrite Ess; apply in_or_app; simpl; auto)) as [Hdx Hx].
  destruct (HB d ss Hin y ltac:(rewrite Ess; apply in_or_app; right; right;
                                 apply in_or_app; simpl; auto)) as [Hdy Hy].
  exists x, y, batch, results, r, k, pre, mid, post.
  split; [exact Hx|]. split; [exact Hy|]. split; [congruence|].
  split; [rewrite Hdx, <- Ess; exact Hin|]. split; [exact Hq|].
  split; [exact Hb|]. split; [exact Hres|]. split; [exact Hin_r|].
  split; [exact Hr|]. split; [exact Hk|]. split; [exact Hnth|reflexivity].
Qed.

Lemma findSemanticDuplicates_sound_witness :
  let sA := mkSpec "1" "Flow Rate" "HVAC" "d" in
  let sB := mkSpec "2" "Flow Rate Max" "HVAC" "d" in
  let v := mkVerdict (Some 0) true 90 "same" in
  In (mkDup 90 "same" [sA; sB]) (findSemanticDuplicates (fun _ => Some [v]) [sA; sB]) /\
  exists x y batch results r k pre mid post,
    In x [sA; sB] /\ In y [sA; sB] /\ domain x = domain y /\
    In (domain x, (pre ++ x :: mid ++ y :: post)%list) (byDomain [sA; sB]) /\
    Qle_bool 30 (calculateStringSimilarity (primaryName x) (primaryName y)) = true /\
    In batch (batches 10 (find_candidates [sA; sB])) /\
    (fun _ : list Candidate => Some [v]) batch = Some results /\ In r results /\
    dup_rule r = true /\ pairIndex r = Some k /\
    nth_error batch k = Some (mkCand x y (calculateStringSimilarity (primaryName x) (primaryName y))) /\
    mkDup 90 "same" [sA; sB] = mkDup (vsimilarity r) (reason r) [x; y].
Proof.
  intros sA sB v.
  assert (H : In (mkDup 90 "same" [sA; sB]) (findSemanticDuplicates (fun _ => Some [v]) [sA; sB])).
  { vm_compute. left. reflexivity. }
  split; [exact H|]. exact (findSemanticDuplicates_sound (fun _ => Some [v]) [sA; sB] _ H).
Defined.
